(** * apply-edit: the diff parser and the edit applier of [main.go]

    A shallow embedding of [parseDiff] and [performEdit] together with the
    functions of Go's [strings] package that they call, and of
    [readDiffFromStdin] and [main] as computations over the events by which
    the program touches the outside.  A Go [string] is a sequence of bytes;
    it is modelled as [list ascii]. *)

From Equations Require Import Equations.
From Stdlib Require Import Ascii String.
From Stdlib Require Import List ZArith NArith Bool Arith Lia.
Import ListNotations.

Local Open Scope list_scope.

(** ** Go strings *)

Definition gostring : Type := list ascii.

(** A literal, written as a Rocq string. *)
Definition str (s : string) : gostring := list_ascii_of_string s.

Definition byte (c : ascii) : N := N_of_ascii c.

Definition TAB : ascii := ascii_of_N 9.
Definition LF : ascii := ascii_of_N 10.
Definition CR : ascii := ascii_of_N 13.
Definition SP : ascii := ascii_of_N 32.

(** [len(s)] as a Go [int]. *)
Definition len (s : gostring) : Z := Z.of_nat (length s).

(** [s[i:]] and [s[:i]] for an index that the caller has kept in range. *)
Definition sliceFrom (s : gostring) (i : Z) : gostring := skipn (Z.to_nat i) s.
Definition sliceTo (s : gostring) (i : Z) : gostring := firstn (Z.to_nat i) s.

(** ** The [strings] package *)

Module Strings.

(** [strings.HasPrefix]. *)
Fixpoint HasPrefix (s prefix : gostring) : bool :=
  match prefix, s with
  | [], _ => true
  | _ :: _, [] => false
  | p :: ps, c :: cs => Ascii.eqb c p && HasPrefix cs ps
  end.

(** [strings.Index]: the position of the first instance of [substr] in [s],
    or [-1] when there is none. *)
Fixpoint Index (s substr : gostring) : Z :=
  if HasPrefix s substr then 0%Z
  else match s with
       | [] => (-1)%Z
       | _ :: t =>
           let i := Index t substr in
           if (i <? 0)%Z then (-1)%Z else (i + 1)%Z
       end.

(** [strings.ReplaceAll] for a non-empty [old]: the instances of [old] are
    found from left to right and do not overlap.  [skip] counts the bytes of
    a replaced instance that are still to be passed over. *)
Fixpoint replaceFrom (old new : gostring) (skip : nat) (s : gostring) : gostring :=
  match s with
  | [] => []
  | c :: t =>
      match skip with
      | S k => replaceFrom old new k t
      | O =>
          if HasPrefix s old
          then new ++ replaceFrom old new (length old - 1) t
          else c :: replaceFrom old new 0 t
      end
  end.

Definition ReplaceAll (s old new : gostring) : gostring := replaceFrom old new 0 s.

(** [strings.Split] for a non-empty [sep]; [cur] holds the bytes of the piece
    under construction. *)
Fixpoint splitFrom (sep : gostring) (skip : nat) (cur : gostring) (s : gostring)
  : list gostring :=
  match s with
  | [] => [cur]
  | c :: t =>
      match skip with
      | S k => splitFrom sep k cur t
      | O =>
          if HasPrefix s sep
          then cur :: splitFrom sep (length sep - 1) [] t
          else splitFrom sep 0 (cur ++ [c]) t
      end
  end.

Definition Split (s sep : gostring) : list gostring := splitFrom sep 0 [] s.

(** [strings.Join]. *)
Fixpoint Join (elems : list gostring) (sep : gostring) : gostring :=
  match elems with
  | [] => []
  | [a] => a
  | a :: rest => a ++ sep ++ Join rest sep
  end.

(** The one-byte white space of [unicode.IsSpace]: tab, line feed, vertical
    tab, form feed, carriage return and space. *)
Definition asciiSpace (c : ascii) : bool :=
  (N.leb 9 (byte c) && N.leb (byte c) 13) || N.eqb (byte c) 32.

(** The white space of [unicode.IsSpace] whose UTF-8 encoding has two bytes:
    U+0085 and U+00A0. *)
Definition space2 (a b : ascii) : bool :=
  N.eqb (byte a) 194 && (N.eqb (byte b) 133 || N.eqb (byte b) 160).

(** The white space whose encoding has three bytes: U+1680, U+2000 to U+200A,
    U+2028, U+2029, U+202F, U+205F and U+3000. *)
Definition space3 (a b c : ascii) : bool :=
  (N.eqb (byte a) 225 && N.eqb (byte b) 154 && N.eqb (byte c) 128)
  || (N.eqb (byte a) 226 && N.eqb (byte b) 128
      && ((N.leb 128 (byte c) && N.leb (byte c) 138)
          || N.eqb (byte c) 168 || N.eqb (byte c) 169 || N.eqb (byte c) 175))
  || (N.eqb (byte a) 226 && N.eqb (byte b) 129 && N.eqb (byte c) 159)
  || (N.eqb (byte a) 227 && N.eqb (byte b) 128 && N.eqb (byte c) 128).

(** [strings.TrimLeftFunc(s, unicode.IsSpace)]: encoded white space is taken
    off the front until a rune that is not white space (or a byte that starts
    no valid encoding) is met. *)
Fixpoint trimLeftSpace (s : gostring) : gostring :=
  match s with
  | [] => []
  | a :: t =>
      if asciiSpace a then trimLeftSpace t
      else match t with
           | [] => s
           | b :: t2 =>
               if space2 a b then trimLeftSpace t2
               else match t2 with
                    | [] => s
                    | c :: t3 => if space3 a b c then trimLeftSpace t3 else s
                    end
           end
  end.

(** The same on the reversed string, where the bytes of an encoding arrive
    last byte first. *)
Fixpoint trimLeftSpaceRev (s : gostring) : gostring :=
  match s with
  | [] => []
  | a :: t =>
      if asciiSpace a then trimLeftSpaceRev t
      else match t with
           | [] => s
           | b :: t2 =>
               if space2 b a then trimLeftSpaceRev t2
               else match t2 with
                    | [] => s
                    | c :: t3 => if space3 c b a then trimLeftSpaceRev t3 else s
                    end
           end
  end.

(** [strings.TrimRightFunc(s, unicode.IsSpace)]. *)
Definition trimRightSpace (s : gostring) : gostring :=
  rev (trimLeftSpaceRev (rev s)).

(** [strings.TrimSpace]. *)
Definition TrimSpace (s : gostring) : gostring :=
  trimRightSpace (trimLeftSpace s).

End Strings.

Import Strings.

(** ** Errors

    [fmt.Errorf] builds an error out of its formatted message. *)

Inductive error : Type :=
  | Errorf (msg : gostring).

Definition errorMessage (e : error) : gostring :=
  match e with Errorf m => m end.

(** ** [performEdit] *)

Definition crlf : gostring := [CR; LF].
Definition lf : gostring := [LF].

Definition notFoundPrefix : gostring :=
  str "search block not found in file:" ++ [LF].

Definition ambiguousMessage : gostring :=
  str "multiple occurrences of search block found - edit would be ambiguous".

Definition performEdit (content searchBlock replaceBlock : gostring)
  : gostring * option error :=
  let normalizedContent := ReplaceAll content crlf lf in
  let normalizedSearch := ReplaceAll searchBlock crlf lf in
  let index := Index normalizedContent normalizedSearch in
  if (index =? -1)%Z then
    ([], Some (Errorf (notFoundPrefix ++ searchBlock)))
  else if negb (Index (sliceFrom normalizedContent (index + len normalizedSearch))
                      normalizedSearch =? -1)%Z then
    ([], Some (Errorf ambiguousMessage))
  else
    (sliceTo normalizedContent index ++ replaceBlock
       ++ sliceFrom normalizedContent (index + len normalizedSearch), None).

(** ** [parseDiff] *)

Definition searchMarker : gostring := str "<<<<<<< SEARCH".
Definition separatorMarker : gostring := str "=======".
Definition replaceMarker : gostring := str ">>>>>>> REPLACE".

Definition noSearchBlockMessage : gostring := str "no search block found in diff".

(** The variables of the scanning loop. *)
Record scanState : Type := mkScan {
  searchLines : list gostring;
  replaceLines : list gostring;
  inSearch : bool;
  inReplace : bool
}.

Definition scanInit : scanState := mkScan [] [] false false.

(** One iteration of the loop: the [switch] on the line. *)
Definition scanLine (st : scanState) (line : gostring) : scanState :=
  if HasPrefix line searchMarker then
    mkScan (searchLines st) (replaceLines st) true false
  else if HasPrefix line separatorMarker then
    mkScan (searchLines st) (replaceLines st) false true
  else if HasPrefix line replaceMarker then
    mkScan (searchLines st) (replaceLines st) false false
  else if inSearch st then
    mkScan (searchLines st ++ [line]) (replaceLines st) (inSearch st) (inReplace st)
  else if inReplace st then
    mkScan (searchLines st) (replaceLines st ++ [line]) (inSearch st) (inReplace st)
  else st.

Definition scan (st : scanState) (lines : list gostring) : scanState :=
  fold_left scanLine lines st.

(** The lines that the loop ranges over. *)
Definition diffLines (diff : gostring) : list gostring :=
  Split (TrimSpace diff) lf.

Definition parseDiff (diff : gostring) : gostring * gostring * option error :=
  let lines := diffLines diff in
  let st := scan scanInit lines in
  if (length (searchLines st) =? 0)%nat then
    ([], [], Some (Errorf noSearchBlockMessage))
  else
    (Join (searchLines st) lf, Join (replaceLines st) lf, None).

(** ** Notions used to state the properties *)

(** A text given by its lines. *)
Definition nl (ls : list string) : gostring := Join (map str ls) lf.

(** [sub] occurs in [s] at byte position [i]. *)
Definition matchesAt (s sub : gostring) (i : nat) : Prop :=
  exists pre post, s = pre ++ sub ++ post /\ length pre = i.

Definition occursIn (s sub : gostring) : Prop := exists i, matchesAt s sub i.

(** The positions at which [sub] occurs in [s], in increasing order;
    occurrences that overlap are all listed. *)
Definition occurrences (s sub : gostring) : list nat :=
  filter (fun i => HasPrefix (skipn i s) sub) (seq 0 (S (length s))).

(** The normalization as the specification words it: every carriage return
    that is immediately followed by a line feed is dropped, reading from the
    left; every other byte is kept. *)
Fixpoint crlfToLf (s : gostring) : gostring :=
  match s with
  | [] => []
  | c :: t =>
      match t with
      | d :: t' =>
          if Ascii.eqb c CR && Ascii.eqb d LF then LF :: crlfToLf t'
          else c :: crlfToLf t
      | [] => [c]
      end
  end.

(** No carriage return of [s] is immediately followed by a line feed. *)
Definition noCRLF (s : gostring) : Prop := ~ occursIn s crlf.

Definition normalize (s : gostring) : gostring := ReplaceAll s crlf lf.

(** [sub] occurs in [s] at [i] and nowhere before. *)
Definition firstMatch (s sub : gostring) (i : nat) : Prop :=
  matchesAt s sub i /\ forall j, j < i -> ~ matchesAt s sub j.

(** The message of a "search block not found" error starts with these words. *)
Definition isSearchNotFound (e : error) : bool :=
  HasPrefix (errorMessage e) (str "search block not found").

Definition isSearchMarker (line : gostring) : bool := HasPrefix line searchMarker.
Definition isSeparator (line : gostring) : bool := HasPrefix line separatorMarker.
Definition isReplaceMarker (line : gostring) : bool := HasPrefix line replaceMarker.

(** The line begins with one of the three markers. *)
Definition isMarker (line : gostring) : bool :=
  isSearchMarker line || isSeparator line || isReplaceMarker line.

Definition plainLines (ls : list gostring) : Prop :=
  Forall (fun l => isMarker l = false) ls.

(** A string of one-byte white space: blanks, tabs and line ends. *)
Definition blank (ws : gostring) : Prop :=
  Forall (fun c => asciiSpace c = true) ws.

Definition noLF (l : gostring) : Prop := ~ In LF l.

(** The lines hold a well-formed marker triple around the search lines [S]
    and the replace lines [R]: a line that starts with the search marker, the
    lines of [S] (at least one, none a marker line), a line that starts with
    the separator, the lines of [R] (none a marker line), and a line that
    starts with the replace marker; the lines before and after the block are
    not marker lines. *)
Definition wellFormedTriple (lines S R : list gostring) : Prop :=
  exists pre m1 m2 m3 post,
    lines = pre ++ m1 :: S ++ m2 :: R ++ m3 :: post
    /\ plainLines pre /\ plainLines post
    /\ HasPrefix m1 searchMarker = true
    /\ S <> [] /\ plainLines S
    /\ HasPrefix m2 separatorMarker = true
    /\ plainLines R
    /\ HasPrefix m3 replaceMarker = true.

(** [l] is met in [ls] before any marker line. *)
Definition plainRun (ls : list gostring) (l : gostring) : Prop :=
  exists p q, ls = p ++ l :: q /\ plainLines (p ++ [l]).

(** [l] is a line of [ls] that is not a marker line and whose nearest
    marker line above it is a search marker. *)
Definition inSearchSection (ls : list gostring) (l : gostring) : Prop :=
  exists p1 m rest, ls = p1 ++ m :: rest /\ HasPrefix m searchMarker = true
                    /\ plainRun rest l.

(** A one-byte character that is not white space. *)
Definition plainByte (e : ascii) : Prop :=
  (byte e < 128)%N /\ asciiSpace e = false.

(** ** [readDiffFromStdin] *)

(** How the input behind a [bufio.Reader] ends: with [io.EOF], or with
    another error of the underlying read. *)
Inductive ending : Type :=
  | EOF
  | Broken (e : error).

(** A [bufio.Reader]: the bytes it has still to deliver and the way the input
    ends after them. *)
Record Reader : Type := mkReader {
  pending : gostring;
  atEnd : ending
}.

(** The bytes up to and including the first [delim], and what follows. *)
Fixpoint cut (delim : ascii) (s : gostring) : option (gostring * gostring) :=
  match s with
  | [] => None
  | c :: t =>
      if Ascii.eqb c delim then Some ([c], t)
      else match cut delim t with
           | Some (line, rest) => Some (c :: line, rest)
           | None => None
           end
  end.

(** [ReadString] of [bufio.Reader]: the bytes through the first [delim]; when
    the input ends before a [delim], the bytes read so far together with the
    error that ended it. *)
Definition ReadString (r : Reader) (delim : ascii)
  : gostring * option ending * Reader :=
  match cut delim (pending r) with
  | Some (line, rest) => (line, None, mkReader rest (atEnd r))
  | None => (pending r, Some (atEnd r), mkReader [] (atEnd r))
  end.

Lemma cut_shorter (delim : ascii) (s line rest : gostring) :
  cut delim s = Some (line, rest) -> length rest < length s.
Proof.
  revert line rest. induction s as [|c t IH]; intros line rest; [discriminate|].
  cbn [cut]. destruct (Ascii.eqb c delim).
  - intros H. injection H as <- <-. simpl. lia.
  - destruct (cut delim t) as [[l r]|] eqn:E; [|discriminate].
    intros H. injection H as <- <-. specialize (IH l r eq_refl). simpl. lia.
Qed.

(** A value together with the equation that names it. *)
Definition inspect {A : Type} (a : A) : {b : A | a = b} := exist _ a eq_refl.

#[local] Unset Equations With Funext.

(** The loop of [readDiffFromStdin], [builder] holding what has been written
    to the [strings.Builder]. *)
Equations? readLoop (builder : gostring) (r : Reader) : gostring * option error
  by wf (length (pending r)) lt :=
  readLoop builder r with inspect (ReadString r LF) := {
    | exist _ (line, Some EOF, _) _ =>
        (if negb (length line =? 0)%nat then builder ++ line else builder, None);
    | exist _ (line, Some (Broken e), _) _ => ([], Some e);
    | exist _ (line, None, r') _ => readLoop (builder ++ line) r' }.
Proof.
  unfold ReadString in *.
  destruct (cut LF (pending r)) as [[l rest]|] eqn:E; [|discriminate].
  match goal with H : _ = (_, None, _) |- _ => injection H as <- <- end.
  cbn [pending]. now apply (cut_shorter LF _ l).
Qed.

Definition readDiffFromStdin (stdin : Reader) : gostring * option error :=
  readLoop [] stdin.

(** ** The process: what [main] does to its environment *)

Inductive stream : Type := Stdout | Stderr.

(** The calls by which the program touches the outside. *)
Inductive event : Type :=
  | Output (f : stream) (text : gostring)
  | ReadStdin
  | ReadFile (name : gostring)
  | WriteFile (name data : gostring) (perm : N).

(** What the operating system answers: the standard input, the result of
    [os.ReadFile] for a name and the result of [os.WriteFile] for a name, the
    data and the permission bits. *)
Record Env : Type := mkEnv {
  stdin : Reader;
  readFileResult : gostring -> gostring * option error;
  writeFileResult : gostring -> gostring -> N -> option error
}.

(** A computation runs to its end with a value, or stops at [os.Exit]. *)
Inductive result (A : Type) : Type :=
  | Done (a : A)
  | Exit (code : Z).

Arguments Done {A} a.
Arguments Exit {A} code.

(** The events of a computation, in order, and how it ended. *)
Definition Proc (A : Type) : Type := list event * result A.

Definition ret {A : Type} (a : A) : Proc A := ([], Done a).

Definition bind {A B : Type} (m : Proc A) (k : A -> Proc B) : Proc B :=
  match m with
  | (t, Done a) => let (t', r) := k a in (t ++ t', r)
  | (t, Exit code) => (t, Exit code)
  end.

Notation "x <- m ;; k" := (bind m (fun x => k))
  (at level 61, m at next level, right associativity).
Notation "m ;; k" := (bind m (fun _ => k))
  (at level 61, right associativity).

Definition osExit {A : Type} (code : Z) : Proc A := ([], Exit code).

(** [fmt.Fprintf], [fmt.Printf] and [fmt.Println] with the text already
    formatted. *)
Definition Fprintf (f : stream) (text : gostring) : Proc unit :=
  ([Output f text], Done tt).

Definition Printf (text : gostring) : Proc unit := Fprintf Stdout text.

Definition Println (text : gostring) : Proc unit := Fprintf Stdout (text ++ [LF]).

Definition osReadFile (env : Env) (name : gostring) : Proc (gostring * option error) :=
  ([ReadFile name], Done (readFileResult env name)).

Definition osWriteFile (env : Env) (name data : gostring) (perm : N)
  : Proc (option error) :=
  ([WriteFile name data perm], Done (writeFileResult env name data perm)).

Definition readDiff (env : Env) : Proc (gostring * option error) :=
  ([ReadStdin], Done (readDiffFromStdin (stdin env))).

(** [if err != nil { fmt.Fprintf(os.Stderr, ...); os.Exit(1) }], the text
    being built from the error. *)
Definition exitOnError (err : option error) (text : error -> gostring) : Proc unit :=
  match err with
  | Some e => Fprintf Stderr (text e) ;; osExit 1%Z
  | None => ret tt
  end.

(** The statements of [main] from "Read diff from stdin" to its end; they
    are the same in [main.go] and in the earlier revision of the file. *)
Definition applyEdit (filename : gostring) (env : Env) : Proc unit :=
  d <- readDiff env ;;
  let '(diff, err) := d in
  exitOnError err (fun e =>
    str "Error reading diff from stdin: " ++ errorMessage e ++ [LF]) ;;
  let '(searchBlock, replaceBlock, err) := parseDiff diff in
  exitOnError err (fun e =>
    str "Error parsing diff: " ++ errorMessage e ++ [LF]) ;;
  c <- osReadFile env filename ;;
  let '(content, err) := c in
  exitOnError err (fun e =>
    str "Error reading file " ++ filename ++ str ": " ++ errorMessage e ++ [LF]) ;;
  let '(newContent, err) := performEdit content searchBlock replaceBlock in
  exitOnError err (fun e =>
    str "Error performing edit: " ++ errorMessage e ++ [LF]) ;;
  err <- osWriteFile env filename newContent 420 ;;
  exitOnError err (fun e =>
    str "Error writing file " ++ filename ++ str ": " ++ errorMessage e ++ [LF]) ;;
  Printf (str "Successfully applied edit to " ++ filename ++ [LF]).

(** [showExample]; [prog] is [os.Args[0]]. *)
Definition showExample (prog : gostring) : Proc unit :=
  Println (str "apply-edit - Apply search and replace edits to files") ;;
  Println [] ;;
  Println (str "USAGE:") ;;
  Printf (str "  " ++ prog ++ str " [--explain] <filename>" ++ [LF]) ;;
  Println [] ;;
  Println (str "DESCRIPTION:") ;;
  Println (str "  Reads a diff from stdin and applies it to the specified file.") ;;
  Println (str "  The diff uses a special format with SEARCH and REPLACE blocks.") ;;
  Println [] ;;
  Println (str "EXAMPLE:") ;;
  Println (str "  Given a file 'app.py' with contents:") ;;
  Println (str "    from flask import Flask") ;;
  Println (str "    app = Flask(__name__)") ;;
  Println [] ;;
  Println (str "  Run this command:") ;;
  Printf (str "    cat <<EOF | " ++ prog ++ str " app.py" ++ [LF]) ;;
  Println (str "    <<<<<<< SEARCH") ;;
  Println (str "    from flask import Flask") ;;
  Println (str "    =======") ;;
  Println (str "    import math") ;;
  Println (str "    from flask import Flask") ;;
  Println (str "    >>>>>>> REPLACE") ;;
  Println (str "    EOF") ;;
  Println [] ;;
  Println (str "  Result: The file will be updated to:") ;;
  Println (str "    import math") ;;
  Println (str "    from flask import Flask") ;;
  Println (str "    app = Flask(__name__)") ;;
  Println [] ;;
  Println (str "FORMAT:") ;;
  Println (str "  <<<<<<< SEARCH") ;;
  Println (str "  [text to find]") ;;
  Println (str "  =======") ;;
  Println (str "  [text to replace with]") ;;
  Println (str "  >>>>>>> REPLACE") ;;
  Println [] ;;
  Println (str "NOTES:") ;;
  Println (str "  - The search text must match exactly (including whitespace)") ;;
  Println (str "  - If multiple matches exist, the operation will fail to avoid ambiguity") ;;
  Println (str "  - Empty replace blocks will delete the search text") ;;
  Println (str "  - The original file is overwritten with the changes").

(** [main] of [main.go] once [flag.Parse] has returned: [prog] is
    [os.Args[0]], [explain] the value of the flag and [args] the arguments
    that follow the flags ([flag.Args()]). *)
Definition main (prog : gostring) (explain : bool) (args : list gostring) (env : Env)
  : Proc unit :=
  if explain then showExample prog
  else
    (if negb (length args =? 1)%nat then
       Fprintf Stderr (str "Usage: " ++ prog ++ str " [--explain] <filename>" ++ [LF]) ;;
       Fprintf Stderr (str "Use --explain to see example usage" ++ [LF]) ;;
       osExit 1%Z
     else ret tt) ;;
    let filename := nth 0 args [] in
    applyEdit filename env.

(** The earlier revision of the file, kept in [src/unnamed/part_000]: the
    program has no flag and [prog :: args] is [os.Args]. *)
Module Part000.

Definition main (prog : gostring) (args : list gostring) (env : Env) : Proc unit :=
  (if negb (length (prog :: args) =? 2)%nat then
     Fprintf Stderr (str "Usage: " ++ prog ++ str " <filename>" ++ [LF]) ;;
     Fprintf Stderr (str "Example: echo 'diff content' | " ++ prog ++ str " file.txt"
                       ++ [LF]) ;;
     osExit 1%Z
   else ret tt) ;;
  let filename := nth 1 (prog :: args) [] in
  applyEdit filename env.

End Part000.

(** The example of the help text: the file [app.py], and on the standard
    input the diff that adds an import to it; no other file exists and
    writing succeeds. *)
Definition exampleEnv : Env :=
  mkEnv
    (mkReader (nl ["<<<<<<< SEARCH"; "from flask import Flask"; "=======";
                   "import math"; "from flask import Flask"; ">>>>>>> REPLACE"; ""]%string)
              EOF)
    (fun name =>
       if list_eq_dec ascii_dec name (str "app.py")
       then (nl ["from flask import Flask"; "app = Flask(__name__)"; ""]%string, None)
       else ([], Some (Errorf (str "open " ++ name ++ str ": no such file or directory"))))
    (fun _ _ _ => None).

(** ** Notions used to state the properties of [main] *)

Definition isWrite (e : event) : bool :=
  match e with WriteFile _ _ _ => true | _ => false end.

Definition isFileAccess (e : event) : bool :=
  match e with ReadFile _ | WriteFile _ _ _ => true | _ => false end.

Definition isStdout (e : event) : bool :=
  match e with Output Stdout _ => true | _ => false end.

Definition isStderr (e : event) : bool :=
  match e with Output Stderr _ => true | _ => false end.

(** Reading the diff, parsing it, reading the file [filename] and editing its
    content all succeed, and [newContent] is the edited content. *)
Definition editSucceeds (filename : gostring) (env : Env) (newContent : gostring)
  : Prop :=
  exists diff searchBlock replaceBlock content,
    readDiffFromStdin (stdin env) = (diff, None)
    /\ parseDiff diff = (searchBlock, replaceBlock, None)
    /\ readFileResult env filename = (content, None)
    /\ performEdit content searchBlock replaceBlock = (newContent, None).

(** The diff was read from the standard input and parsed without error. *)
Definition diffParsed (env : Env) : Prop :=
  exists diff searchBlock replaceBlock,
    readDiffFromStdin (stdin env) = (diff, None)
    /\ parseDiff diff = (searchBlock, replaceBlock, None).

(** Every carriage return of [s] is immediately followed by a line feed. *)
Definition crBeforeLF (s : gostring) : Prop :=
  forall a b, s = a ++ CR :: b -> HasPrefix b lf = true.

(** The same, as a test. *)
Fixpoint crBeforeLFb (s : gostring) : bool :=
  match s with
  | [] => true
  | c :: t => (if Ascii.eqb c CR then HasPrefix t lf else true) && crBeforeLFb t
  end.

(** ** The unit tests of [main_test.go], as evaluations of the model *)

Example test_parse_basic :
  parseDiff (nl ["<<<<<<< SEARCH"; "from flask import Flask"; "=======";
                 "import math"; "from flask import Flask"; ">>>>>>> REPLACE"]%string)
  = (str "from flask import Flask",
     nl ["import math"; "from flask import Flask"]%string, None).
Proof. vm_compute. reflexivity. Qed.

Example test_parse_extra_whitespace :
  parseDiff (nl [""; "<<<<<<< SEARCH"; "test line"; "=======";
                 "replacement line"; ">>>>>>> REPLACE"; ""]%string)
  = (str "test line", str "replacement line", None).
Proof. vm_compute. reflexivity. Qed.

Example test_parse_empty_search :
  parseDiff (nl ["<<<<<<< SEARCH"; "======="; "replacement"; ">>>>>>> REPLACE"]%string)
  = ([], [], Some (Errorf noSearchBlockMessage)).
Proof. vm_compute. reflexivity. Qed.

Example test_parse_only_search_marker :
  parseDiff (nl ["<<<<<<< SEARCH"; "search text"]%string)
  = (str "search text", [], None).
Proof. vm_compute. reflexivity. Qed.

Example test_edit_basic :
  performEdit (nl ["Hello world"; "This is a test"]%string)
              (str "Hello world") (str "Hello universe")
  = (nl ["Hello universe"; "This is a test"]%string, None).
Proof. vm_compute. reflexivity. Qed.

Example test_edit_mixed_line_endings :
  performEdit (str "unix" ++ [LF] ++ str "windows" ++ [CR; LF] ++ str "mac" ++ [CR] ++ str "end")
              (str "windows" ++ [CR; LF]) (str "normalized" ++ [LF])
  = (str "unix" ++ [LF] ++ str "normalized" ++ [LF] ++ str "mac" ++ [CR] ++ str "end", None).
Proof. vm_compute. reflexivity. Qed.

Example test_edit_empty_search :
  performEdit (nl ["line 1"; "line 2"]%string) [] (str "inserted line" ++ [LF])
  = ([], Some (Errorf ambiguousMessage)).
Proof. vm_compute. reflexivity. Qed.

Example test_edit_empty_content_empty_search :
  performEdit [] [] (str "new content") = ([], Some (Errorf ambiguousMessage)).
Proof. vm_compute. reflexivity. Qed.

Example test_edit_multiple :
  performEdit (nl ["duplicate"; "some text"; "duplicate"; "more text"]%string)
              (str "duplicate") (str "unique")
  = ([], Some (Errorf ambiguousMessage)).
Proof. vm_compute. reflexivity. Qed.

Example test_edit_not_found :
  performEdit (str "This is some content") (str "nonexistent text") (str "replacement")
  = ([], Some (Errorf (notFoundPrefix ++ str "nonexistent text"))).
Proof. vm_compute. reflexivity. Qed.

(** ** Facts about the [strings] functions *)

Lemma HasPrefix_app (p t : gostring) : HasPrefix (p ++ t) p = true.
Proof.
  induction p as [|c p IH]; simpl; [now destruct t|].
  now rewrite Ascii.eqb_refl, IH.
Qed.

Lemma HasPrefix_inv (s p : gostring) :
  HasPrefix s p = true -> s = p ++ skipn (length p) s.
Proof.
  revert s; induction p as [|c p IH]; intros s H; simpl in *; [reflexivity|].
  destruct s as [|a s]; [discriminate|].
  apply andb_true_iff in H as [Hc Hp].
  apply Ascii.eqb_eq in Hc; subst a.
  simpl. f_equal. now apply IH.
Qed.

Lemma HasPrefix_iff (s p : gostring) :
  HasPrefix s p = true <-> exists t, s = p ++ t.
Proof.
  split.
  - intros H. eexists. now apply HasPrefix_inv.
  - intros [t ->]. apply HasPrefix_app.
Qed.

Lemma HasPrefix_nil (s : gostring) : HasPrefix s [] = true.
Proof. now destruct s. Qed.

Lemma matchesAt_0 (s sub : gostring) :
  matchesAt s sub 0 <-> HasPrefix s sub = true.
Proof.
  split.
  - intros (pre & post & -> & Hl).
    destruct pre; [|discriminate]. simpl. apply HasPrefix_app.
  - intros H. exists [], (skipn (length sub) s). split; [|reflexivity].
    now apply HasPrefix_inv.
Qed.

Lemma matchesAt_S (c : ascii) (t sub : gostring) (j : nat) :
  matchesAt (c :: t) sub (S j) <-> matchesAt t sub j.
Proof.
  split.
  - intros (pre & post & E & Hl).
    destruct pre as [|a pre]; [discriminate|].
    simpl in E, Hl. injection E as -> ->. injection Hl as Hl.
    now exists pre, post.
  - intros (pre & post & -> & Hl).
    exists (c :: pre), post. simpl. now rewrite Hl.
Qed.

Lemma matchesAt_bound (s sub : gostring) (i : nat) :
  matchesAt s sub i -> i + length sub <= length s.
Proof.
  intros (pre & post & -> & <-). rewrite !length_app. lia.
Qed.

Lemma matchesAt_skipn (s sub : gostring) (i : nat) :
  matchesAt s sub i <-> i <= length s /\ HasPrefix (skipn i s) sub = true.
Proof.
  revert s; induction i as [|i IH]; intros s.
  - rewrite matchesAt_0. simpl. split; [intros H; split; [lia|exact H]|intros [_ H]; exact H].
  - destruct s as [|c t].
    + split.
      * intros H. apply matchesAt_bound in H. simpl in H. lia.
      * intros [H _]. simpl in H. lia.
    + rewrite matchesAt_S, IH. simpl. split; intros [H1 H2]; split; auto; lia.
Qed.

Lemma matchesAt_split (s sub : gostring) (i : nat) :
  matchesAt s sub i ->
  s = firstn i s ++ sub ++ skipn (i + length sub) s.
Proof.
  intros (pre & post & -> & <-).
  rewrite firstn_app, Nat.sub_diag, firstn_all. simpl. rewrite app_nil_r.
  f_equal. rewrite app_assoc, skipn_app, length_app.
  replace (length pre + length sub - (length pre + length sub)) with 0 by lia.
  rewrite skipn_all2 by (rewrite length_app; lia). reflexivity.
Qed.

Lemma occurrences_spec (s sub : gostring) (i : nat) :
  In i (occurrences s sub) <-> matchesAt s sub i.
Proof.
  unfold occurrences. rewrite filter_In, in_seq, matchesAt_skipn.
  split; intros [H1 H2]; split; auto; lia.
Qed.

Lemma Index_eq (s sub : gostring) :
  Index s sub =
  if HasPrefix s sub then 0%Z
  else match s with
       | [] => (-1)%Z
       | _ :: t => if (Index t sub <? 0)%Z then (-1)%Z else (Index t sub + 1)%Z
       end.
Proof. destruct s; reflexivity. Qed.

Lemma Index_cases (s sub : gostring) :
  Index s sub = (-1)%Z \/ exists i, Index s sub = Z.of_nat i /\ i <= length s.
Proof.
  induction s as [|c t IH]; rewrite Index_eq.
  - destruct (HasPrefix [] sub); [right; exists 0; auto|now left].
  - destruct (HasPrefix (c :: t) sub); [right; exists 0; split; [reflexivity|simpl; lia]|].
    destruct IH as [->|(i & -> & Hi)]; [now left|].
    right. exists (S i). split; [|simpl; lia].
    destruct (Z.ltb_spec (Z.of_nat i) 0); lia.
Qed.

Lemma Index_absent (s sub : gostring) :
  Index s sub = (-1)%Z -> forall j, ~ matchesAt s sub j.
Proof.
  induction s as [|c t IH]; rewrite Index_eq; intros H j Hj.
  - destruct (HasPrefix [] sub) eqn:E; [discriminate|].
    destruct j; [apply matchesAt_0 in Hj; congruence|].
    apply matchesAt_bound in Hj. simpl in Hj. lia.
  - destruct (HasPrefix (c :: t) sub) eqn:E; [discriminate|].
    destruct j; [apply matchesAt_0 in Hj; congruence|].
    apply matchesAt_S in Hj.
    destruct (Index_cases t sub) as [Ht|(i & Ht & _)].
    + now apply (IH Ht j).
    + rewrite Ht in H. destruct (Z.ltb_spec (Z.of_nat i) 0); lia.
Qed.

Lemma Index_first (s sub : gostring) (i : nat) :
  Index s sub = Z.of_nat i ->
  matchesAt s sub i /\ forall j, j < i -> ~ matchesAt s sub j.
Proof.
  revert i; induction s as [|c t IH]; intros i; rewrite Index_eq; intros H.
  - destruct (HasPrefix [] sub) eqn:E; [|lia].
    assert (i = 0) by lia; subst i. split; [now apply matchesAt_0|lia].
  - destruct (HasPrefix (c :: t) sub) eqn:E.
    + assert (i = 0) by lia; subst i. split; [now apply matchesAt_0|lia].
    + destruct (Index_cases t sub) as [Ht|(k & Ht & _)]; rewrite Ht in H.
      * simpl in H. lia.
      * destruct (Z.ltb_spec (Z.of_nat k) 0); [lia|].
        assert (i = S k) by lia; subst i.
        destruct (IH k Ht) as [Hm Hfirst].
        split; [now apply matchesAt_S|].
        intros j Hj Hmj. destruct j.
        -- apply matchesAt_0 in Hmj. congruence.
        -- apply matchesAt_S in Hmj. apply (Hfirst j); [lia|assumption].
Qed.

Lemma Index_none (s sub : gostring) :
  Index s sub = (-1)%Z <-> ~ occursIn s sub.
Proof.
  split.
  - intros H [j Hj]. now apply (Index_absent s sub H j).
  - intros H. destruct (Index_cases s sub) as [E|(i & E & _)]; [exact E|].
    exfalso. apply H. exists i. now apply Index_first.
Qed.

Lemma Index_nil (s : gostring) : Index s [] = 0%Z.
Proof. rewrite Index_eq, HasPrefix_nil. reflexivity. Qed.

(** ** Line-ending normalization *)

Lemma HasPrefix_crlf (c : ascii) (t : gostring) :
  HasPrefix (c :: t) crlf =
  match t with
  | d :: _ => Ascii.eqb c CR && Ascii.eqb d LF
  | [] => false
  end.
Proof.
  destruct t as [|d t']; simpl.
  - apply andb_false_r.
  - destruct t'; now rewrite andb_true_r.
Qed.

Lemma replaceFrom_crlf_le (n : nat) :
  forall s, length s <= n -> replaceFrom crlf lf 0 s = crlfToLf s.
Proof.
  induction n as [|n IH]; intros s Hs.
  - destruct s; [reflexivity|simpl in Hs; lia].
  - destruct s as [|c t]; [reflexivity|].
    cbn [replaceFrom crlfToLf]. rewrite HasPrefix_crlf.
    destruct t as [|d t'].
    + reflexivity.
    + destruct (Ascii.eqb c CR && Ascii.eqb d LF).
      * cbn [replaceFrom length crlf Nat.sub lf app]. f_equal.
        apply IH. simpl in Hs. lia.
      * f_equal. apply IH. simpl in *. lia.
Qed.

Lemma normalize_crlfToLf (s : gostring) : normalize s = crlfToLf s.
Proof. apply (replaceFrom_crlf_le (length s)). lia. Qed.

Lemma crlfToLf_cons (c : ascii) (t : gostring) :
  crlfToLf (c :: t) =
  if HasPrefix (c :: t) crlf then LF :: crlfToLf (skipn 1 t) else c :: crlfToLf t.
Proof.
  rewrite HasPrefix_crlf. destruct t as [|d t']; [reflexivity|].
  cbn [crlfToLf skipn]. reflexivity.
Qed.

(** Normalization goes through a cut that is not followed by a line feed. *)
Lemma crlfToLf_app (a x : gostring) :
  HasPrefix x lf = false -> crlfToLf (a ++ x) = crlfToLf a ++ crlfToLf x.
Proof.
  intros Hx. remember (length a) as n eqn:Hn. revert a Hn.
  induction n as [n IH] using lt_wf_ind. intros a Hn.
  destruct a as [|c t]; [reflexivity|].
  change ((c :: t) ++ x) with (c :: (t ++ x)).
  rewrite (crlfToLf_cons c t), (crlfToLf_cons c (t ++ x)).
  rewrite !HasPrefix_crlf.
  destruct t as [|d t'].
  - cbn [app]. destruct x as [|d x']; [reflexivity|].
    replace (Ascii.eqb d LF) with false; [now rewrite andb_false_r|].
    symmetry. unfold lf in Hx. cbn [HasPrefix] in Hx.
    now rewrite HasPrefix_nil, andb_true_r in Hx.
  - cbn [app skipn].
    destruct (Ascii.eqb c CR && Ascii.eqb d LF).
    + cbn [app]. f_equal. apply (IH (length t')); [subst n; simpl; lia|reflexivity].
    + change (d :: t' ++ x) with ((d :: t') ++ x).
      rewrite (IH (length (d :: t'))); [reflexivity|subst n; simpl; lia|reflexivity].
Qed.

Lemma crlfToLf_app_crlf (a b : gostring) :
  crlfToLf (a ++ CR :: LF :: b) = crlfToLf a ++ LF :: crlfToLf b.
Proof. now rewrite crlfToLf_app. Qed.

Lemma crlfToLf_app_lone_cr (a b : gostring) :
  HasPrefix b lf = false ->
  crlfToLf (a ++ CR :: b) = crlfToLf a ++ CR :: crlfToLf b.
Proof.
  intros Hb. rewrite crlfToLf_app by reflexivity. f_equal.
  rewrite crlfToLf_cons, HasPrefix_crlf. destruct b as [|d b']; [reflexivity|].
  replace (Ascii.eqb d LF) with false; [reflexivity|].
  symmetry. unfold lf in Hb. cbn [HasPrefix] in Hb.
  now rewrite HasPrefix_nil, andb_true_r in Hb.
Qed.

Lemma crlfToLf_noCRLF (s : gostring) : noCRLF s -> crlfToLf s = s.
Proof.
  unfold noCRLF. induction s as [|c t IH]; intros H; [reflexivity|].
  rewrite crlfToLf_cons.
  destruct (HasPrefix (c :: t) crlf) eqn:E.
  - exfalso. apply H. exists 0. now apply matchesAt_0.
  - f_equal. apply IH. intros [j Hj]. apply H. exists (S j).
    now apply matchesAt_S.
Qed.

Lemma crlfToLf_nil_inv (s : gostring) : crlfToLf s = [] -> s = [].
Proof.
  destruct s as [|c t]; [reflexivity|]. rewrite crlfToLf_cons.
  destruct (HasPrefix (c :: t) crlf); discriminate.
Qed.

(** ** How [performEdit] branches *)

Lemma performEdit_not_found (c s r : gostring) :
  Index (normalize c) (normalize s) = (-1)%Z ->
  performEdit c s r = ([], Some (Errorf (notFoundPrefix ++ s))).
Proof.
  intros H. unfold performEdit. fold (normalize c) (normalize s).
  cbv zeta. rewrite H. reflexivity.
Qed.

Lemma performEdit_found (c s r : gostring) (i : nat) :
  Index (normalize c) (normalize s) = Z.of_nat i ->
  performEdit c s r =
  if (Index (skipn (i + length (normalize s)) (normalize c)) (normalize s) =? -1)%Z
  then (firstn i (normalize c) ++ r
          ++ skipn (i + length (normalize s)) (normalize c), None)
  else ([], Some (Errorf ambiguousMessage)).
Proof.
  intros H. unfold performEdit. fold (normalize c) (normalize s).
  cbv zeta. rewrite H.
  destruct (Z.eqb_spec (Z.of_nat i) (-1)); [lia|].
  unfold sliceFrom, sliceTo, len.
  replace (Z.to_nat (Z.of_nat i + Z.of_nat (length (normalize s))))
    with (i + length (normalize s)) by lia.
  rewrite Nat2Z.id.
  destruct (Index _ _ =? -1)%Z; reflexivity.
Qed.

Lemma matchesAt_in_suffix (s sub : gostring) (k j : nat) :
  k <= length s -> matchesAt (skipn k s) sub j -> matchesAt s sub (k + j).
Proof.
  intros Hk (pre & post & E & Hl).
  exists (firstn k s ++ pre), post. split.
  - rewrite <- app_assoc, <- E. symmetry. apply firstn_skipn.
  - rewrite length_app, length_firstn. lia.
Qed.

Lemma matchesAt_of_suffix (s sub : gostring) (k j : nat) :
  k <= j -> matchesAt s sub j -> matchesAt (skipn k s) sub (j - k).
Proof.
  intros Hk (pre & post & -> & Hl).
  exists (skipn k pre), post. split.
  - rewrite skipn_app. replace (k - length pre) with 0 by lia. reflexivity.
  - rewrite length_skipn. lia.
Qed.

Lemma notFound_neq_ambiguous (s : gostring) :
  Errorf (notFoundPrefix ++ s) <> Errorf ambiguousMessage.
Proof. intros H. vm_compute in H. discriminate. Qed.

Lemma firstMatch_Index (s sub : gostring) (i : nat) :
  firstMatch s sub i <-> Index s sub = Z.of_nat i.
Proof.
  split; [|apply Index_first].
  intros [Hm Hfirst].
  destruct (Index_cases s sub) as [E|(k & E & _)].
  - exfalso. now apply (Index_absent s sub E i).
  - destruct (Index_first s sub k E) as [Hk Hkfirst].
    destruct (Nat.lt_trichotomy i k) as [Hlt|[->|Hlt]]; [|exact E|].
    + exfalso. now apply (Hkfirst i).
    + exfalso. now apply (Hfirst k).
Qed.

Lemma normalize_nil_inv (s : gostring) : normalize s = [] -> s = [].
Proof. rewrite normalize_crlfToLf. apply crlfToLf_nil_inv. Qed.

(** ** The claims about [performEdit] *)

(** C1, as amended: when the search is not empty and its normalized form
    occurs at exactly one position [i] of the normalized content,
    [performEdit] succeeds and returns the normalized content before the
    match, then [replace] as supplied, then the normalized content after the
    match. *)
Theorem performEdit_unique_match (content search replace : gostring) (i : nat) :
  search <> [] ->
  occurrences (normalize content) (normalize search) = [i] ->
  performEdit content search replace =
    (firstn i (normalize content) ++ replace
       ++ skipn (i + length (normalize search)) (normalize content), None).
Proof.
  intros Hne Hocc.
  assert (Hin : forall k, matchesAt (normalize content) (normalize search) k -> k = i).
  { intros k Hk. apply occurrences_spec in Hk. rewrite Hocc in Hk.
    destruct Hk as [<-|[]]. reflexivity. }
  assert (Hi : matchesAt (normalize content) (normalize search) i).
  { apply occurrences_spec. rewrite Hocc. now left. }
  destruct (Index_cases (normalize content) (normalize search)) as [E|(k & E & _)].
  - exfalso. now apply (Index_absent _ _ E i).
  - destruct (Index_first _ _ _ E) as [Hk _].
    apply Hin in Hk. subst k.
    rewrite (performEdit_found _ _ _ i E).
    destruct (Index_cases (skipn (i + length (normalize search)) (normalize content))
                          (normalize search)) as [E2|(m & E2 & _)].
    + rewrite E2. reflexivity.
    + exfalso. destruct (Index_first _ _ _ E2) as [Hm _].
      apply matchesAt_in_suffix in Hm; [|apply matchesAt_bound in Hi; lia].
      apply Hin in Hm.
      assert (Hlen : length (normalize search) = 0) by lia.
      apply length_zero_iff_nil in Hlen. apply normalize_nil_inv in Hlen.
      contradiction.
Qed.

Lemma performEdit_unique_match_witness :
  str "line 2" ++ [CR; LF] <> []
  /\ occurrences (normalize (str "line 1" ++ [CR; LF] ++ str "line 2" ++ [CR; LF] ++ str "line 3"))
                 (normalize (str "line 2" ++ [CR; LF])) = [7]
  /\ performEdit (str "line 1" ++ [CR; LF] ++ str "line 2" ++ [CR; LF] ++ str "line 3")
                 (str "line 2" ++ [CR; LF]) (str "new line 2" ++ [CR; LF])
     = (str "line 1" ++ [LF] ++ str "new line 2" ++ [CR; LF] ++ str "line 3", None).
Proof.
  split; [discriminate|]. split; [vm_compute; reflexivity|].
  rewrite (performEdit_unique_match _ _ _ 7);
    [vm_compute; reflexivity|discriminate|vm_compute; reflexivity].
Defined.

(** C1 as stated fails when both the content and the search are empty: the
    empty search occurs at exactly one position of the empty content, and the
    edit is refused as ambiguous. *)
Lemma performEdit_unique_match_empty_refused :
  occurrences (normalize []) (normalize []) = [0]
  /\ performEdit [] [] (str "x") = ([], Some (Errorf ambiguousMessage))
  /\ performEdit [] [] (str "x")
     <> (firstn 0 (normalize []) ++ str "x"
           ++ skipn (0 + length (normalize [])) (normalize []), None).
Proof.
  split; [vm_compute; reflexivity|]. split; [vm_compute; reflexivity|].
  vm_compute. discriminate.
Qed.

(** C2 as stated fails: the search occurs at two positions of the content
    that overlap, and [performEdit] replaces the first one without an
    error. *)
Lemma performEdit_overlapping_matches_accepted :
  occurrences (normalize (str "aaa")) (normalize (str "aa")) = [0; 1]
  /\ performEdit (str "aaa") (str "aa") (str "b") = (str "ba", None).
Proof. split; vm_compute; reflexivity. Qed.

(** C2, as amended: when the normalized search occurs in the normalized
    content at two positions [i] and [j] that do not overlap, [j] being at or
    after the end of the occurrence at [i], [performEdit] fails with the
    multiple-occurrences error and returns no content. *)
Theorem performEdit_disjoint_matches (c s r : gostring) (i j : nat) :
  matchesAt (normalize c) (normalize s) i ->
  matchesAt (normalize c) (normalize s) j ->
  i + length (normalize s) <= j ->
  performEdit c s r = ([], Some (Errorf ambiguousMessage)).
Proof.
  intros Hi Hj Hij.
  destruct (Index_cases (normalize c) (normalize s)) as [E|(k & E & _)].
  - exfalso. now apply (Index_absent _ _ E i).
  - rewrite (performEdit_found c s r k E).
    destruct (Index_first _ _ _ E) as [Hk Hfirst].
    assert (Hki : k <= i).
    { destruct (Nat.le_gt_cases k i) as [H|H]; [exact H|].
      exfalso. now apply (Hfirst i). }
    destruct (Z.eqb_spec (Index (skipn (k + length (normalize s)) (normalize c))
                                (normalize s)) (-1)) as [E2|E2]; [|reflexivity].
    exfalso. apply (Index_absent _ _ E2 (j - (k + length (normalize s)))).
    apply matchesAt_of_suffix; [lia|exact Hj].
Qed.

Lemma performEdit_disjoint_matches_witness :
  matchesAt (normalize (str "abcabc")) (normalize (str "abc")) 0
  /\ matchesAt (normalize (str "abcabc")) (normalize (str "abc")) 3
  /\ performEdit (str "abcabc") (str "abc") (str "x")
     = ([], Some (Errorf ambiguousMessage)).
Proof.
  assert (H0 : matchesAt (normalize (str "abcabc")) (normalize (str "abc")) 0).
  { apply occurrences_spec. vm_compute. now left. }
  assert (H3 : matchesAt (normalize (str "abcabc")) (normalize (str "abc")) 3).
  { apply occurrences_spec. vm_compute. right. now left. }
  split; [exact H0|]. split; [exact H3|].
  apply (performEdit_disjoint_matches _ _ _ 0 3 H0 H3). vm_compute. lia.
Defined.

(** C3: [performEdit] fails with the multiple-occurrences error exactly when
    the normalized search has a first occurrence in the normalized content
    and occurs again in what follows the end of that occurrence; no content
    is returned then. *)
Theorem performEdit_ambiguous_iff (content search replace : gostring) :
  (snd (performEdit content search replace) = Some (Errorf ambiguousMessage)
   <-> exists i,
         firstMatch (normalize content) (normalize search) i
         /\ occursIn (skipn (i + length (normalize search)) (normalize content))
                     (normalize search))
  /\ (snd (performEdit content search replace) = Some (Errorf ambiguousMessage)
      -> fst (performEdit content search replace) = []).
Proof.
  destruct (Index_cases (normalize content) (normalize search)) as [E|(k & E & _)].
  - rewrite (performEdit_not_found _ _ _ E). cbn [fst snd]. split; [|reflexivity].
    split.
    + intros H. injection H as H. exfalso.
      apply (notFound_neq_ambiguous search). now f_equal.
    + intros (i & [Hi _] & _). exfalso. now apply (Index_absent _ _ E i).
  - rewrite (performEdit_found _ _ _ k E).
    destruct (Z.eqb_spec (Index (skipn (k + length (normalize search)) (normalize content))
                                (normalize search)) (-1)) as [E2|E2];
      cbn [fst snd].
    + split; [|discriminate]. split; [discriminate|].
      intros (i & Hi & Hocc). apply firstMatch_Index in Hi.
      assert (i = k) by lia; subst i.
      apply Index_none in E2. contradiction.
    + split; [|reflexivity]. split; [|reflexivity].
      intros _. exists k. split; [now apply firstMatch_Index|].
      destruct (Index_cases (skipn (k + length (normalize search)) (normalize content))
                            (normalize search)) as [E3|(m & E3 & _)]; [contradiction|].
      exists m. now apply Index_first.
Qed.

(** C8: with the empty search, [performEdit] fails with the
    multiple-occurrences error whatever the content and the replacement: the
    empty search occurs at every position of the content, it is found at
    position 0 and found again in what follows. *)
Theorem performEdit_empty_search (content replace : gostring) :
  performEdit content [] replace = ([], Some (Errorf ambiguousMessage))
  /\ Index (normalize content) (normalize []) = 0%Z
  /\ (forall i, i <= length (normalize content) ->
        matchesAt (normalize content) (normalize []) i).
Proof.
  assert (E : Index (normalize content) (normalize []) = Z.of_nat 0)
    by apply Index_nil.
  split; [|split; [exact E|]].
  - rewrite (performEdit_found _ _ _ 0 E).
    change (normalize []) with (@nil ascii). cbn [length Nat.add skipn].
    rewrite Index_nil. reflexivity.
  - intros i Hi. apply matchesAt_skipn. split; [exact Hi|].
    apply HasPrefix_nil.
Qed.

(** C9: [performEdit] fails with the "search block not found" error exactly
    when the normalized search does not occur in the normalized content, and
    the message of that error ends with the search text as the caller
    supplied it. *)
Theorem performEdit_not_found_iff (content search replace : gostring) :
  (~ occursIn (normalize content) (normalize search)
   <-> exists e, snd (performEdit content search replace) = Some e
                 /\ isSearchNotFound e = true)
  /\ (forall e, snd (performEdit content search replace) = Some e ->
       isSearchNotFound e = true ->
       errorMessage e = notFoundPrefix ++ search
       /\ fst (performEdit content search replace) = []).
Proof.
  destruct (Index_cases (normalize content) (normalize search)) as [E|(k & E & _)].
  - rewrite (performEdit_not_found _ _ _ E). cbn [fst snd]. split.
    + split.
      * intros _. eexists. split; [reflexivity|]. reflexivity.
      * intros _. now apply Index_none.
    + intros e He _. injection He as <-. split; reflexivity.
  - assert (Hocc : occursIn (normalize content) (normalize search)).
    { exists k. now apply Index_first. }
    rewrite (performEdit_found _ _ _ k E).
    destruct (Index _ _ =? -1)%Z; cbn [fst snd].
    + split.
      * split; [contradiction|]. intros (e & He & _). discriminate.
      * intros e He. discriminate.
    + split.
      * split; [contradiction|]. intros (e & He & Hnf).
        injection He as <-. discriminate.
      * intros e He Hnf. injection He as <-. discriminate.
Qed.

Lemma performEdit_not_found_iff_witness :
  snd (performEdit (str "line 1" ++ [LF] ++ str "line 2")
                   (str "line 3" ++ [CR; LF]) (str "x"))
    = Some (Errorf (notFoundPrefix ++ str "line 3" ++ [CR; LF]))
  /\ errorMessage (Errorf (notFoundPrefix ++ str "line 3" ++ [CR; LF]))
     = notFoundPrefix ++ str "line 3" ++ [CR; LF].
Proof.
  split; [vm_compute; reflexivity|].
  apply (proj2 (performEdit_not_found_iff
                  (str "line 1" ++ [LF] ++ str "line 2")
                  (str "line 3" ++ [CR; LF]) (str "x")));
    vm_compute; reflexivity.
Defined.

(** C5: the match is made on the content and the search in which every
    carriage return immediately followed by a line feed has been dropped
    ([crlfToLf]); a carriage return that no line feed follows is kept where
    it is, so a string without such a pair is matched as it is; the outcome
    depends on the content and the search through their normalized forms
    only; and a successful result holds [replace] exactly as supplied between
    the two parts of the normalized content. *)
Theorem performEdit_line_endings (content search replace : gostring) :
  normalize content = crlfToLf content
  /\ normalize search = crlfToLf search
  /\ (forall a b, normalize (a ++ CR :: LF :: b) = normalize a ++ LF :: normalize b)
  /\ (forall a b, HasPrefix b lf = false ->
       normalize (a ++ CR :: b) = normalize a ++ CR :: normalize b)
  /\ (forall x, noCRLF x -> normalize x = x)
  /\ (forall out, performEdit content search replace = (out, None) ->
       exists i,
         firstMatch (crlfToLf content) (crlfToLf search) i
         /\ out = firstn i (crlfToLf content) ++ replace
                   ++ skipn (i + length (crlfToLf search)) (crlfToLf content))
  /\ (forall content' search',
       crlfToLf content' = crlfToLf content ->
       crlfToLf search' = crlfToLf search ->
       fst (performEdit content' search' replace)
         = fst (performEdit content search replace)
       /\ (snd (performEdit content' search' replace) = None
           <-> snd (performEdit content search replace) = None)).
Proof.
  split; [apply normalize_crlfToLf|]. split; [apply normalize_crlfToLf|].
  split; [intros a b; rewrite !normalize_crlfToLf; apply crlfToLf_app_crlf|].
  split; [intros a b Hb; rewrite !normalize_crlfToLf; now apply crlfToLf_app_lone_cr|].
  split; [intros x Hx; rewrite normalize_crlfToLf; now apply crlfToLf_noCRLF|].
  split.
  - intros out H. rewrite <- !normalize_crlfToLf.
    destruct (Index_cases (normalize content) (normalize search)) as [E|(k & E & _)].
    + rewrite (performEdit_not_found _ _ _ E) in H. discriminate.
    + rewrite (performEdit_found _ _ _ k E) in H.
      destruct (Index _ _ =? -1)%Z; [|discriminate].
      injection H as <-. exists k. split; [now apply firstMatch_Index|reflexivity].
  - intros c' s' Hc Hs. rewrite <- !normalize_crlfToLf in Hc, Hs.
    destruct (Index_cases (normalize content) (normalize search)) as [E|(k & E & _)].
    + assert (E' := E). rewrite <- Hc, <- Hs in E'.
      rewrite (performEdit_not_found _ _ _ E), (performEdit_not_found _ _ _ E').
      cbn [fst snd]. split; [reflexivity|]. split; discriminate.
    + assert (E' := E). rewrite <- Hc, <- Hs in E'.
      rewrite (performEdit_found _ _ _ k E), (performEdit_found _ _ _ k E').
      rewrite Hc, Hs.
      destruct (Index _ _ =? -1)%Z; cbn [fst snd]; split; reflexivity.
Qed.

(** ** Marker lines and the scanning loop *)

Lemma isMarker_false (l : gostring) :
  isMarker l = false ->
  HasPrefix l searchMarker = false /\ HasPrefix l separatorMarker = false
  /\ HasPrefix l replaceMarker = false.
Proof.
  unfold isMarker, isSearchMarker, isSeparator, isReplaceMarker.
  intros H. apply orb_false_iff in H as [H H3]. apply orb_false_iff in H as [H1 H2].
  auto.
Qed.

Lemma separator_not_search (l : gostring) :
  HasPrefix l separatorMarker = true -> HasPrefix l searchMarker = false.
Proof.
  destruct l as [|c t]; [discriminate|]. unfold separatorMarker, searchMarker.
  cbn [str list_ascii_of_string HasPrefix]. intros H.
  apply andb_true_iff in H as [H _]. apply Ascii.eqb_eq in H. subst c.
  reflexivity.
Qed.

Lemma replace_not_search (l : gostring) :
  HasPrefix l replaceMarker = true ->
  HasPrefix l searchMarker = false /\ HasPrefix l separatorMarker = false.
Proof.
  destruct l as [|c t]; [discriminate|].
  unfold replaceMarker, separatorMarker, searchMarker.
  cbn [str list_ascii_of_string HasPrefix]. intros H.
  apply andb_true_iff in H as [H _]. apply Ascii.eqb_eq in H. subst c.
  split; reflexivity.
Qed.

Lemma scanLine_search (st : scanState) (m : gostring) :
  HasPrefix m searchMarker = true ->
  scanLine st m = mkScan (searchLines st) (replaceLines st) true false.
Proof. intros H. unfold scanLine. now rewrite H. Qed.

Lemma scanLine_separator (st : scanState) (m : gostring) :
  HasPrefix m separatorMarker = true ->
  scanLine st m = mkScan (searchLines st) (replaceLines st) false true.
Proof.
  intros H. unfold scanLine. now rewrite (separator_not_search m H), H.
Qed.

Lemma scanLine_replace (st : scanState) (m : gostring) :
  HasPrefix m replaceMarker = true ->
  scanLine st m = mkScan (searchLines st) (replaceLines st) false false.
Proof.
  intros H. unfold scanLine.
  destruct (replace_not_search m H) as [H1 H2]. now rewrite H1, H2, H.
Qed.

Lemma scanLine_plain (st : scanState) (l : gostring) :
  isMarker l = false ->
  scanLine st l =
  if inSearch st then
    mkScan (searchLines st ++ [l]) (replaceLines st) (inSearch st) (inReplace st)
  else if inReplace st then
    mkScan (searchLines st) (replaceLines st ++ [l]) (inSearch st) (inReplace st)
  else st.
Proof.
  intros H. destruct (isMarker_false l H) as (H1 & H2 & H3).
  unfold scanLine. now rewrite H1, H2, H3.
Qed.

Lemma scan_app (st : scanState) (a b : list gostring) :
  scan st (a ++ b) = scan (scan st a) b.
Proof. apply fold_left_app. Qed.

Lemma scan_cons (st : scanState) (l : gostring) (ls : list gostring) :
  scan st (l :: ls) = scan (scanLine st l) ls.
Proof. reflexivity. Qed.

Lemma scan_plain_idle (ls : list gostring) (sl rl : list gostring) :
  plainLines ls -> scan (mkScan sl rl false false) ls = mkScan sl rl false false.
Proof.
  induction 1 as [|l ls Hl _ IH]; [reflexivity|].
  rewrite scan_cons, (scanLine_plain _ l Hl). exact IH.
Qed.

Lemma scan_plain_search (ls : list gostring) (sl rl : list gostring) (b : bool) :
  plainLines ls -> scan (mkScan sl rl true b) ls = mkScan (sl ++ ls) rl true b.
Proof.
  intros H. revert sl. induction H as [|l ls Hl _ IH]; intros sl.
  - cbn. now rewrite app_nil_r.
  - rewrite scan_cons, (scanLine_plain _ l Hl). cbn [inSearch searchLines replaceLines inReplace].
    rewrite IH, <- app_assoc. reflexivity.
Qed.

Lemma scan_plain_replace (ls : list gostring) (sl rl : list gostring) :
  plainLines ls -> scan (mkScan sl rl false true) ls = mkScan sl (rl ++ ls) false true.
Proof.
  intros H. revert rl. induction H as [|l ls Hl _ IH]; intros rl.
  - cbn. now rewrite app_nil_r.
  - rewrite scan_cons, (scanLine_plain _ l Hl). cbn [inSearch searchLines replaceLines inReplace].
    rewrite IH, <- app_assoc. reflexivity.
Qed.

(** The loop on a block: search marker, search lines, separator, replace
    lines, replace marker, with plain lines after it. *)
Lemma scan_block (sl rl : list gostring) (b1 b2 : bool)
      (m1 m2 m3 : gostring) (S R post : list gostring) :
  HasPrefix m1 searchMarker = true ->
  HasPrefix m2 separatorMarker = true ->
  HasPrefix m3 replaceMarker = true ->
  plainLines S -> plainLines R -> plainLines post ->
  scan (mkScan sl rl b1 b2) (m1 :: S ++ m2 :: R ++ m3 :: post)
  = mkScan (sl ++ S) (rl ++ R) false false.
Proof.
  intros H1 H2 H3 HS HR Hpost.
  rewrite scan_cons, (scanLine_search _ m1 H1). cbn [searchLines replaceLines].
  rewrite scan_app, (scan_plain_search S sl rl false HS).
  rewrite scan_cons, (scanLine_separator _ m2 H2). cbn [searchLines replaceLines].
  rewrite scan_app, (scan_plain_replace R _ rl HR).
  rewrite scan_cons, (scanLine_replace _ m3 H3). cbn [searchLines replaceLines].
  apply scan_plain_idle. exact Hpost.
Qed.

Lemma parseDiff_of_scan (diff : gostring) (sl rl : list gostring) (b1 b2 : bool) :
  scan scanInit (diffLines diff) = mkScan sl rl b1 b2 ->
  parseDiff diff =
  match sl with
  | [] => ([], [], Some (Errorf noSearchBlockMessage))
  | _ :: _ => (Join sl lf, Join rl lf, None)
  end.
Proof.
  intros H. unfold parseDiff. cbv zeta. rewrite H. cbn [searchLines replaceLines].
  destruct sl; reflexivity.
Qed.

(** ** Facts about [TrimSpace] *)

Ltac bytes_arith :=
  repeat match goal with
         | H : _ && _ = true |- _ => apply andb_true_iff in H; destruct H
         | H : _ || _ = true |- _ => apply orb_true_iff in H; destruct H
         | H : N.eqb _ _ = true |- _ => apply N.eqb_eq in H
         | H : N.leb _ _ = true |- _ => apply N.leb_le in H
         end;
  try lia.

Lemma asciiSpace_small (c : ascii) : asciiSpace c = true -> (byte c <= 32)%N.
Proof. unfold asciiSpace. intros H. bytes_arith. Qed.

Lemma space2_high (a b : ascii) :
  space2 a b = true -> (128 <= byte a)%N /\ (128 <= byte b)%N.
Proof. unfold space2. intros H. bytes_arith. Qed.

Lemma space3_high (a b c : ascii) :
  space3 a b c = true -> (128 <= byte a)%N /\ (128 <= byte b)%N /\ (128 <= byte c)%N.
Proof. unfold space3. intros H. bytes_arith. Qed.

Lemma space2_blank_r (a w : ascii) : asciiSpace w = true -> space2 a w = false.
Proof.
  intros Hw. apply asciiSpace_small in Hw.
  destruct (space2 a w) eqn:E; [|reflexivity].
  apply space2_high in E. lia.
Qed.

Lemma space3_blank_r (a b w : ascii) : asciiSpace w = true -> space3 a b w = false.
Proof.
  intros Hw. apply asciiSpace_small in Hw.
  destruct (space3 a b w) eqn:E; [|reflexivity].
  apply space3_high in E. lia.
Qed.

Lemma space3_blank_m (a w c : ascii) : asciiSpace w = true -> space3 a w c = false.
Proof.
  intros Hw. apply asciiSpace_small in Hw.
  destruct (space3 a w c) eqn:E; [|reflexivity].
  apply space3_high in E. lia.
Qed.

Lemma trimLeftSpace_blank (ws x : gostring) :
  blank ws -> trimLeftSpace (ws ++ x) = trimLeftSpace x.
Proof.
  induction 1 as [|w ws Hw _ IH]; [reflexivity|].
  cbn [app trimLeftSpace]. now rewrite Hw.
Qed.

Lemma trimLeftSpaceRev_blank (ws x : gostring) :
  blank ws -> trimLeftSpaceRev (ws ++ x) = trimLeftSpaceRev x.
Proof.
  induction 1 as [|w ws Hw _ IH]; [reflexivity|].
  cbn [app trimLeftSpaceRev]. now rewrite Hw.
Qed.

Lemma trimRightSpace_blank (x ws : gostring) :
  blank ws -> trimRightSpace (x ++ ws) = trimRightSpace x.
Proof.
  intros H. unfold trimRightSpace. rewrite rev_app_distr.
  rewrite trimLeftSpaceRev_blank; [reflexivity|].
  apply Forall_rev. exact H.
Qed.

Lemma trimLeftSpace_all_blank (ws : gostring) :
  blank ws -> trimLeftSpace ws = [].
Proof.
  intros H. pose proof (trimLeftSpace_blank ws [] H) as E.
  now rewrite app_nil_r in E.
Qed.

Lemma trimLeftSpace_app_blank (ws : gostring) :
  blank ws ->
  forall n t, length t <= n ->
    (trimLeftSpace t = [] /\ trimLeftSpace (t ++ ws) = [])
    \/ (trimLeftSpace t <> [] /\ trimLeftSpace (t ++ ws) = trimLeftSpace t ++ ws).
Proof.
  intros Hws. induction n as [|n IH]; intros t Ht.
  - destruct t; [|simpl in Ht; lia]. left. split; [reflexivity|].
    now apply trimLeftSpace_all_blank.
  - destruct t as [|a t1].
    { left. split; [reflexivity|]. now apply trimLeftSpace_all_blank. }
    cbn [app trimLeftSpace].
    destruct (asciiSpace a) eqn:Ea; [apply IH; simpl in Ht; lia|].
    destruct t1 as [|b t2].
    { right. split; [discriminate|]. cbn [app].
      destruct Hws as [|w ws Hw Hws]; [reflexivity|].
      rewrite (space2_blank_r a w Hw).
      destruct Hws as [|w2 ws Hw2 Hws]; [reflexivity|].
      now rewrite (space3_blank_m a w w2 Hw). }
    cbn [app].
    destruct (space2 a b) eqn:E2; [apply IH; simpl in Ht; lia|].
    destruct t2 as [|c t3].
    { right. split; [discriminate|]. cbn [app].
      destruct Hws as [|w ws Hw Hws]; [reflexivity|].
      now rewrite (space3_blank_r a b w Hw). }
    cbn [app].
    destruct (space3 a b c) eqn:E3; [apply IH; simpl in Ht; lia|].
    right. split; [discriminate|reflexivity].
Qed.

(** One-byte white space around a text does not change what [TrimSpace]
    returns. *)
Lemma TrimSpace_blank_around (ws1 t ws2 : gostring) :
  blank ws1 -> blank ws2 -> TrimSpace (ws1 ++ t ++ ws2) = TrimSpace t.
Proof.
  intros H1 H2. unfold TrimSpace. rewrite (trimLeftSpace_blank ws1 _ H1).
  destruct (trimLeftSpace_app_blank ws2 H2 (length t) t (le_n _))
    as [[Ea Eb]|[_ Eb]]; rewrite Eb.
  - now rewrite Ea.
  - now apply trimRightSpace_blank.
Qed.

Lemma diffLines_blank_around (ws1 t ws2 : gostring) :
  blank ws1 -> blank ws2 -> diffLines (ws1 ++ t ++ ws2) = diffLines t.
Proof.
  intros H1 H2. unfold diffLines. now rewrite TrimSpace_blank_around.
Qed.

(** ** Facts about [Split] and [Join] on line feeds *)

Lemma splitFrom_lf_cons (cur : gostring) (c : ascii) (t : gostring) :
  splitFrom lf 0 cur (c :: t) =
  if Ascii.eqb c LF then cur :: splitFrom lf 0 [] t
  else splitFrom lf 0 (cur ++ [c]) t.
Proof.
  cbn [splitFrom]. unfold lf at 1. cbn [HasPrefix].
  rewrite HasPrefix_nil, andb_true_r. reflexivity.
Qed.

Lemma splitFrom_lf_nil (cur : gostring) : splitFrom lf 0 cur [] = [cur].
Proof. reflexivity. Qed.

Lemma splitFrom_noLF_app (l : gostring) :
  noLF l -> forall cur s, splitFrom lf 0 cur (l ++ s) = splitFrom lf 0 (cur ++ l) s.
Proof.
  unfold noLF. induction l as [|c l IH]; intros H cur s.
  - now rewrite app_nil_r.
  - cbn [app]. rewrite splitFrom_lf_cons.
    destruct (Ascii.eqb_spec c LF) as [->|Hc]; [exfalso; apply H; now left|].
    rewrite IH; [|intros Hin; apply H; now right].
    now rewrite <- app_assoc.
Qed.

Lemma Split_Join (ls : list gostring) :
  ls <> [] -> Forall noLF ls -> Split (Join ls lf) lf = ls.
Proof.
  unfold Split. intros Hne H. induction H as [|a ls Ha Hls IH]; [contradiction|].
  destruct ls as [|b rest].
  - cbn [Join]. rewrite <- (app_nil_r a) at 1.
    rewrite (splitFrom_noLF_app a Ha). reflexivity.
  - change (Join (a :: b :: rest) lf) with (a ++ lf ++ Join (b :: rest) lf).
    rewrite (splitFrom_noLF_app a Ha). unfold lf at 2. cbn [app].
    rewrite splitFrom_lf_cons, Ascii.eqb_refl. f_equal.
    apply IH. discriminate.
Qed.

Lemma splitFrom_lines_noLF (s cur : gostring) :
  noLF cur -> Forall noLF (splitFrom lf 0 cur s).
Proof.
  revert cur. induction s as [|c t IH]; intros cur Hcur.
  - constructor; [exact Hcur|constructor].
  - rewrite splitFrom_lf_cons.
    destruct (Ascii.eqb_spec c LF) as [->|Hc].
    + constructor; [exact Hcur|]. apply IH. intros [].
    + apply IH. unfold noLF. rewrite in_app_iff. intros [H|[H|[]]]; [now apply Hcur|].
      now apply Hc.
Qed.

Lemma Split_lines_noLF (s : gostring) : Forall noLF (Split s lf).
Proof. apply splitFrom_lines_noLF. intros []. Qed.

(** Whatever the loop collects is a line of its input that begins with no
    marker. *)
Lemma scan_collects_plain (P : gostring -> Prop) (ls : list gostring) :
  forall st,
    (forall l, In l ls -> isMarker l = false -> P l) ->
    Forall P (searchLines st) -> Forall P (replaceLines st) ->
    Forall P (searchLines (scan st ls)) /\ Forall P (replaceLines (scan st ls)).
Proof.
  induction ls as [|l ls IH]; intros st HP Hs Hr; [now split|].
  rewrite scan_cons. apply IH.
  - intros l' Hin. apply HP. now right.
  - unfold scanLine.
    destruct (HasPrefix l searchMarker) eqn:E1; [exact Hs|].
    destruct (HasPrefix l separatorMarker) eqn:E2; [exact Hs|].
    destruct (HasPrefix l replaceMarker) eqn:E3; [exact Hs|].
    destruct (inSearch st); [|destruct (inReplace st); exact Hs].
    cbn [searchLines]. apply Forall_app. split; [exact Hs|].
    constructor; [|constructor]. apply HP; [now left|].
    unfold isMarker, isSearchMarker, isSeparator, isReplaceMarker.
    now rewrite E1, E2, E3.
  - unfold scanLine.
    destruct (HasPrefix l searchMarker) eqn:E1; [exact Hr|].
    destruct (HasPrefix l separatorMarker) eqn:E2; [exact Hr|].
    destruct (HasPrefix l replaceMarker) eqn:E3; [exact Hr|].
    destruct (inSearch st); [exact Hr|].
    destruct (inReplace st); [|exact Hr].
    cbn [replaceLines]. apply Forall_app. split; [exact Hr|].
    constructor; [|constructor]. apply HP; [now left|].
    unfold isMarker, isSearchMarker, isSeparator, isReplaceMarker.
    now rewrite E1, E2, E3.
Qed.

Lemma parseDiff_same_lines (a b : gostring) :
  diffLines a = diffLines b -> parseDiff a = parseDiff b.
Proof. intros E. unfold parseDiff. now rewrite E. Qed.

Lemma parseDiff_triple_lines (diff : gostring) (S R : list gostring) :
  wellFormedTriple (diffLines diff) S R ->
  parseDiff diff = (Join S lf, Join R lf, None).
Proof.
  intros (pre & m1 & m2 & m3 & post & E & Hpre & Hpost & H1 & HS & HpS & H2 & HpR & H3).
  rewrite (parseDiff_of_scan _ S R false false).
  - destruct S; [contradiction|reflexivity].
  - rewrite E, scan_app. unfold scanInit. rewrite (scan_plain_idle pre [] [] Hpre).
    now rewrite (scan_block [] [] false false m1 m2 m3 S R post).
Qed.

(** ** The claims about [parseDiff] *)

(** C4: when the lines of the diff text hold a well-formed marker triple,
    [parseDiff] succeeds and returns the search lines joined by a line feed
    and the replace lines joined by a line feed, whatever white space (blank
    lines) surrounds the text. *)
Theorem parseDiff_marker_triple (ws1 diff ws2 : gostring) (S R : list gostring) :
  blank ws1 -> blank ws2 ->
  wellFormedTriple (diffLines diff) S R ->
  parseDiff (ws1 ++ diff ++ ws2) = (Join S lf, Join R lf, None).
Proof.
  intros Hw1 Hw2 Ht.
  rewrite (parseDiff_same_lines _ diff (diffLines_blank_around _ _ _ Hw1 Hw2)).
  now apply parseDiff_triple_lines.
Qed.

(** C7 as stated fails: the lines collected after the first of two search
    markers are kept, and the returned search fragment is not made of the
    lines after the second marker only. *)
Lemma parseDiff_second_search_marker_keeps_lines :
  parseDiff (nl ["<<<<<<< SEARCH"; "old"; "<<<<<<< SEARCH"; "new"; "=======";
                 "x"; ">>>>>>> REPLACE"]%string)
  = (nl ["old"; "new"]%string, str "x", None)
  /\ fst (fst (parseDiff (nl ["<<<<<<< SEARCH"; "old"; "<<<<<<< SEARCH"; "new";
                               "======="; "x"; ">>>>>>> REPLACE"]%string)))
     <> str "new".
Proof. split; [vm_compute; reflexivity|vm_compute; discriminate]. Qed.

(** C7, as amended: a line that begins with the search marker switches the
    loop to collecting search lines and keeps the search lines collected so
    far; for a diff with two search markers the returned search fragment
    holds the lines collected after the first marker followed by the lines
    collected after the second. *)
Theorem parseDiff_two_search_markers
        (diff : gostring) (pre : list gostring) (m1 : gostring) (A : list gostring)
        (m1' : gostring) (B : list gostring) (m2 : gostring) (R : list gostring)
        (m3 : gostring) (post : list gostring) :
  diffLines diff = pre ++ m1 :: A ++ m1' :: B ++ m2 :: R ++ m3 :: post ->
  plainLines pre -> plainLines A -> plainLines B -> plainLines R -> plainLines post ->
  HasPrefix m1 searchMarker = true ->
  HasPrefix m1' searchMarker = true ->
  HasPrefix m2 separatorMarker = true ->
  HasPrefix m3 replaceMarker = true ->
  A ++ B <> [] ->
  parseDiff diff = (Join (A ++ B) lf, Join R lf, None)
  /\ (forall st l, HasPrefix l searchMarker = true ->
        scanLine st l = mkScan (searchLines st) (replaceLines st) true false).
Proof.
  intros E Hpre HA HB HR Hpost H1 H1' H2 H3 Hne.
  split; [|intros st l; apply scanLine_search].
  rewrite (parseDiff_of_scan _ (A ++ B) R false false).
  - destruct (A ++ B); [contradiction|reflexivity].
  - rewrite E, scan_app. unfold scanInit. rewrite (scan_plain_idle pre [] [] Hpre).
    rewrite scan_cons, (scanLine_search _ m1 H1). cbn [searchLines replaceLines].
    rewrite scan_app, (scan_plain_search A [] [] false HA). cbn [app].
    now rewrite (scan_block A [] true false m1' m2 m3 B R post).
Qed.

(** C10: when [parseDiff] succeeds, no line of the search fragment and no
    line of the replace fragment begins with a marker. *)
Theorem parseDiff_fragments_plain (diff search replace : gostring) :
  parseDiff diff = (search, replace, None) ->
  plainLines (Split search lf) /\ plainLines (Split replace lf).
Proof.
  unfold parseDiff. cbv zeta.
  pose proof (scan_collects_plain (fun l => isMarker l = false /\ noLF l)
                (diffLines diff) scanInit) as Hinv.
  destruct Hinv as [Hs Hr]; [|constructor|constructor|].
  { intros l Hin Hm. split; [exact Hm|].
    pose proof (Split_lines_noLF (TrimSpace diff)) as Hlf.
    rewrite Forall_forall in Hlf. now apply Hlf. }
  destruct (searchLines (scan scanInit (diffLines diff))) as [|s0 sl] eqn:Es;
    [discriminate|].
  cbn [length Nat.eqb]. intros H.
  assert (Hsearch : Join (s0 :: sl) lf = search) by congruence.
  assert (Hreplace : Join (replaceLines (scan scanInit (diffLines diff))) lf = replace)
    by congruence.
  clear H. rewrite <- Hsearch, <- Hreplace.
  apply Forall_and_inv in Hs as [Hs1 Hs2]. apply Forall_and_inv in Hr as [Hr1 Hr2].
  split.
  - rewrite Split_Join; [exact Hs1|discriminate|exact Hs2].
  - destruct (replaceLines (scan scanInit (diffLines diff))) as [|r0 rl] eqn:Er.
    + cbn. constructor; [reflexivity|constructor].
    + rewrite Split_Join; [exact Hr1|discriminate|exact Hr2].
Qed.

(** *** Which lines are collected into the search section *)

Lemma plainRun_nil (l : gostring) : ~ plainRun [] l.
Proof. intros (p & q & E & _). destruct p; discriminate. Qed.

Lemma plainRun_cons (x : gostring) (ls : list gostring) (l : gostring) :
  plainRun (x :: ls) l <-> isMarker x = false /\ (x = l \/ plainRun ls l).
Proof.
  split.
  - intros (p & q & E & Hp). destruct p as [|y p].
    + cbn in E. injection E as -> ->. cbn in Hp. inversion Hp; subst. auto.
    + cbn in E. injection E as -> ->. cbn in Hp. inversion Hp; subst.
      split; [assumption|]. right. now exists p, q.
  - intros [Hx [->|(p & q & -> & Hp)]].
    + exists [], ls. split; [reflexivity|]. constructor; [exact Hx|constructor].
    + exists (x :: p), q. split; [reflexivity|]. cbn. now constructor.
Qed.

Lemma inSearchSection_nil (l : gostring) : ~ inSearchSection [] l.
Proof. intros (p & m & r & E & _). destruct p; discriminate. Qed.

Lemma inSearchSection_cons (x : gostring) (ls : list gostring) (l : gostring) :
  inSearchSection (x :: ls) l
  <-> (HasPrefix x searchMarker = true /\ plainRun ls l) \/ inSearchSection ls l.
Proof.
  split.
  - intros (p & m & r & E & Hm & Hr). destruct p as [|y p].
    + cbn in E. injection E as -> ->. left. now split.
    + cbn in E. injection E as -> ->. right. now exists p, m, r.
  - intros [[Hx Hr]|(p & m & r & -> & Hm & Hr)].
    + now exists [], x, ls.
    + now exists (x :: p), m, r.
Qed.

Lemma searchMarker_isMarker (x : gostring) :
  HasPrefix x searchMarker = true -> isMarker x = true.
Proof. unfold isMarker, isSearchMarker. now intros ->. Qed.

Lemma scan_searchLines_In (ls : list gostring) :
  forall st l,
    In l (searchLines (scan st ls))
    <-> In l (searchLines st)
        \/ (inSearch st = true /\ plainRun ls l)
        \/ inSearchSection ls l.
Proof.
  induction ls as [|x ls IH]; intros st l.
  - cbn [scan fold_left]. pose proof (plainRun_nil l). pose proof (inSearchSection_nil l).
    tauto.
  - rewrite scan_cons, IH, plainRun_cons, inSearchSection_cons.
    destruct (HasPrefix x searchMarker) eqn:E1.
    + rewrite (scanLine_search st x E1). cbn [searchLines inSearch].
      pose proof (searchMarker_isMarker x E1). intuition congruence.
    + destruct (isMarker x) eqn:Em.
      * assert (Hst : searchLines (scanLine st x) = searchLines st
                      /\ inSearch (scanLine st x) = false).
        { unfold scanLine. rewrite E1.
          unfold isMarker, isSearchMarker, isSeparator, isReplaceMarker in Em.
          rewrite E1 in Em. cbn [orb] in Em.
          destruct (HasPrefix x separatorMarker); [now split|].
          cbn [orb] in Em. rewrite Em. now split. }
        destruct Hst as [-> ->]. intuition congruence.
      * rewrite (scanLine_plain st x Em).
        destruct (inSearch st) eqn:Es.
        -- cbn [searchLines inSearch]. rewrite in_app_iff. cbn [In].
           intuition congruence.
        -- destruct (inReplace st); cbn [searchLines inSearch]; rewrite ?Es;
             intuition congruence.
Qed.

Lemma searchLines_nil_iff (ls : list gostring) :
  searchLines (scan scanInit ls) = [] <-> forall l, ~ inSearchSection ls l.
Proof.
  split.
  - intros E l H.
    assert (Hin : In l (searchLines (scan scanInit ls))).
    { apply scan_searchLines_In. right. now right. }
    rewrite E in Hin. exact Hin.
  - intros H. destruct (searchLines (scan scanInit ls)) as [|l sl] eqn:E; [reflexivity|].
    exfalso. assert (Hin : In l (searchLines (scan scanInit ls))) by (rewrite E; now left).
    apply scan_searchLines_In in Hin. cbn in Hin.
    destruct Hin as [[]|[[Hd _]|Hin]]; [discriminate|]. now apply (H l).
Qed.

(** Lines without a search marker leave the search lines as they are when
    the loop is not collecting them. *)
Lemma scan_no_search_marker (ls : list gostring) :
  Forall (fun l => HasPrefix l searchMarker = false) ls ->
  forall st, inSearch st = false ->
    searchLines (scan st ls) = searchLines st /\ inSearch (scan st ls) = false.
Proof.
  induction 1 as [|x ls Hx _ IH]; intros st Hst; [now split|].
  rewrite scan_cons.
  assert (Hx' : searchLines (scanLine st x) = searchLines st
                /\ inSearch (scanLine st x) = false).
  { unfold scanLine. rewrite Hx, Hst.
    destruct (HasPrefix x separatorMarker); [now split|].
    destruct (HasPrefix x replaceMarker); [now split|].
    destruct (inReplace st); now split. }
  destruct Hx' as [E1 E2]. destruct (IH _ E2) as [E3 E4].
  split; congruence.
Qed.

Lemma parseDiff_fails_iff (diff : gostring) :
  parseDiff diff = ([], [], Some (Errorf noSearchBlockMessage))
  <-> searchLines (scan scanInit (diffLines diff)) = [].
Proof.
  unfold parseDiff. cbv zeta.
  destruct (searchLines (scan scanInit (diffLines diff))) as [|l sl].
  - cbn. split; reflexivity.
  - cbn [length Nat.eqb]. split; discriminate.
Qed.

(** C6: [parseDiff] fails with the "no search block found" error exactly
    when the loop collected no search line, that is when no line of the diff
    lies in a search section; this is its only error, no fragment comes with
    it, and it is what happens for the empty diff text, for a diff without
    markers and for a diff whose search marker is directly followed by the
    separator. *)
Theorem parseDiff_no_search_block (diff : gostring) :
  (parseDiff diff = ([], [], Some (Errorf noSearchBlockMessage))
   <-> searchLines (scan scanInit (diffLines diff)) = [])
  /\ (searchLines (scan scanInit (diffLines diff)) = []
      <-> forall l, ~ inSearchSection (diffLines diff) l)
  /\ (forall e, snd (parseDiff diff) = Some e ->
       parseDiff diff = ([], [], Some (Errorf noSearchBlockMessage)))
  /\ parseDiff [] = ([], [], Some (Errorf noSearchBlockMessage))
  /\ (plainLines (diffLines diff) ->
      parseDiff diff = ([], [], Some (Errorf noSearchBlockMessage)))
  /\ (forall pre m1 m2 rest,
       diffLines diff = pre ++ m1 :: m2 :: rest ->
       Forall (fun l => HasPrefix l searchMarker = false) pre ->
       HasPrefix m1 searchMarker = true ->
       HasPrefix m2 separatorMarker = true ->
       Forall (fun l => HasPrefix l searchMarker = false) rest ->
       parseDiff diff = ([], [], Some (Errorf noSearchBlockMessage))).
Proof.
  split; [apply parseDiff_fails_iff|].
  split; [apply searchLines_nil_iff|].
  split.
  { intros e. unfold parseDiff. cbv zeta.
    destruct (length (searchLines (scan scanInit (diffLines diff))) =? 0);
      [reflexivity|discriminate]. }
  split; [vm_compute; reflexivity|].
  split.
  - intros Hp. apply parseDiff_fails_iff. unfold scanInit.
    now rewrite (scan_plain_idle _ [] [] Hp).
  - intros pre m1 m2 rest E Hpre H1 H2 Hrest. apply parseDiff_fails_iff.
    rewrite E, scan_app.
    destruct (scan_no_search_marker pre Hpre scanInit eq_refl) as [Ea Eb].
    rewrite scan_cons, (scanLine_search _ m1 H1).
    rewrite scan_cons, (scanLine_separator _ m2 H2). cbn [searchLines replaceLines].
    destruct (scan_no_search_marker rest Hrest
                (mkScan (searchLines (scan scanInit pre))
                        (replaceLines (scan scanInit pre)) false true) eq_refl)
      as [Ec _].
    rewrite Ec. cbn [searchLines]. exact Ea.
Qed.

(** *** A marker block given as text *)

Lemma space2_plain_l (e b : ascii) : plainByte e -> space2 e b = false.
Proof.
  intros [He _]. destruct (space2 e b) eqn:E; [|reflexivity].
  apply space2_high in E. lia.
Qed.

Lemma space2_plain_r (a e : ascii) : plainByte e -> space2 a e = false.
Proof.
  intros [He _]. destruct (space2 a e) eqn:E; [|reflexivity].
  apply space2_high in E. lia.
Qed.

Lemma space3_plain_l (e b c : ascii) : plainByte e -> space3 e b c = false.
Proof.
  intros [He _]. destruct (space3 e b c) eqn:E; [|reflexivity].
  apply space3_high in E. lia.
Qed.

Lemma space3_plain_m (a e c : ascii) : plainByte e -> space3 a e c = false.
Proof.
  intros [He _]. destruct (space3 a e c) eqn:E; [|reflexivity].
  apply space3_high in E. lia.
Qed.

Lemma space3_plain_r (a b e : ascii) : plainByte e -> space3 a b e = false.
Proof.
  intros [He _]. destruct (space3 a b e) eqn:E; [|reflexivity].
  apply space3_high in E. lia.
Qed.

Lemma trimLeftSpace_plain (e : ascii) (t : gostring) :
  plainByte e -> trimLeftSpace (e :: t) = e :: t.
Proof.
  intros He. cbn [trimLeftSpace]. rewrite (proj2 He).
  destruct t as [|b t]; [reflexivity|]. rewrite (space2_plain_l e b He).
  destruct t as [|c t]; [reflexivity|]. now rewrite (space3_plain_l e b c He).
Qed.

Lemma trimLeftSpaceRev_plain (e : ascii) (t : gostring) :
  plainByte e -> trimLeftSpaceRev (e :: t) = e :: t.
Proof.
  intros He. cbn [trimLeftSpaceRev]. rewrite (proj2 He).
  destruct t as [|b t]; [reflexivity|]. rewrite (space2_plain_r b e He).
  destruct t as [|c t]; [reflexivity|]. now rewrite (space3_plain_r c b e He).
Qed.

(** Trimming never goes past a one-byte character that is not white space. *)
Lemma trimLeftSpaceRev_stops (e : ascii) (y : gostring) :
  plainByte e ->
  forall n u, length u <= n ->
    exists u1 u2, u = u1 ++ u2 /\ trimLeftSpaceRev (u ++ e :: y) = u2 ++ e :: y.
Proof.
  intros He. induction n as [|n IH]; intros u Hu.
  - destruct u; [|simpl in Hu; lia]. exists [], []. split; [reflexivity|].
    now apply trimLeftSpaceRev_plain.
  - destruct u as [|a u].
    { exists [], []. split; [reflexivity|]. now apply trimLeftSpaceRev_plain. }
    cbn [app trimLeftSpaceRev].
    destruct (asciiSpace a) eqn:Ea.
    { destruct (IH u) as (u1 & u2 & -> & E); [simpl in Hu; lia|].
      exists (a :: u1), u2. now split. }
    destruct u as [|b u].
    { cbn [app]. rewrite (space2_plain_l e a He).
      exists [], [a]. split; [reflexivity|].
      destruct y as [|c y]; [reflexivity|]. now rewrite (space3_plain_m c e a He). }
    cbn [app].
    destruct (space2 b a) eqn:E2.
    { destruct (IH u) as (u1 & u2 & -> & E); [simpl in Hu; lia|].
      exists (a :: b :: u1), u2. now split. }
    destruct u as [|c u].
    { cbn [app]. rewrite (space3_plain_l e b a He).
      exists [], [a; b]. now split. }
    cbn [app].
    destruct (space3 c b a) eqn:E3.
    { destruct (IH u) as (u1 & u2 & -> & E); [simpl in Hu; lia|].
      exists (a :: b :: c :: u1), u2. now split. }
    exists [], (a :: b :: c :: u). now split.
Qed.

Lemma trimRightSpace_stops (e : ascii) (y t : gostring) :
  plainByte e ->
  exists t1 t2, t = t1 ++ t2 /\ trimRightSpace (y ++ e :: t) = y ++ e :: t1.
Proof.
  intros He.
  destruct (trimLeftSpaceRev_stops e (rev y) He (length (rev t)) (rev t) (le_n _))
    as (u1 & u2 & Eu & E).
  exists (rev u2), (rev u1). split.
  - rewrite <- rev_app_distr, <- Eu. symmetry. apply rev_involutive.
  - unfold trimRightSpace. rewrite rev_app_distr. cbn [rev]. rewrite <- app_assoc.
    cbn [app]. rewrite E, rev_app_distr. cbn [rev]. rewrite rev_involutive.
    rewrite <- app_assoc. reflexivity.
Qed.

Lemma Join_snoc (A : list gostring) (m : gostring) :
  A <> [] -> Join (A ++ [m]) lf = Join A lf ++ lf ++ m.
Proof.
  induction A as [|a A IH]; intros H; [contradiction|].
  destruct A as [|b A]; [reflexivity|].
  change (Join ((a :: b :: A) ++ [m]) lf) with (a ++ lf ++ Join ((b :: A) ++ [m]) lf).
  rewrite IH by discriminate.
  change (Join (a :: b :: A) lf) with (a ++ lf ++ Join (b :: A) lf).
  now rewrite <- !app_assoc.
Qed.

Lemma Join_head (c : ascii) (x : gostring) (rest : list gostring) :
  exists r, Join ((c :: x) :: rest) lf = c :: r.
Proof. destruct rest; cbn [Join app]; eexists; reflexivity. Qed.

Lemma noLF_app (a b : gostring) : noLF a -> noLF b -> noLF (a ++ b).
Proof. unfold noLF. intros Ha Hb H. apply in_app_iff in H. tauto. Qed.

Lemma noLF_app_l (a b : gostring) : noLF (a ++ b) -> noLF a.
Proof. unfold noLF. intros H Ha. apply H, in_app_iff. now left. Qed.

Lemma noLF_markers : noLF searchMarker /\ noLF separatorMarker /\ noLF replaceMarker.
Proof.
  unfold noLF. repeat split; intros H; vm_compute in H;
    repeat (destruct H as [H|H]; [discriminate|]); exact H.
Qed.

(** The text of a marker block, whatever follows the markers on their lines,
    holds a well-formed marker triple. *)
Lemma wellFormedTriple_block (t1 t2 t3 : gostring) (S R : list gostring) :
  noLF t1 -> noLF t2 -> noLF t3 -> Forall noLF S -> Forall noLF R ->
  S <> [] -> plainLines S -> plainLines R ->
  wellFormedTriple
    (diffLines (Join ((searchMarker ++ t1) :: S
                        ++ (separatorMarker ++ t2) :: R
                        ++ [replaceMarker ++ t3]) lf))
    S R.
Proof.
  intros Ht1 Ht2 Ht3 HS HR Hne HpS HpR.
  destruct noLF_markers as (Hm1 & Hm2 & Hm3).
  set (A := (searchMarker ++ t1) :: S ++ [separatorMarker ++ t2] ++ R).
  assert (EA : forall m, (searchMarker ++ t1) :: S ++ (separatorMarker ++ t2) :: R ++ [m]
                         = A ++ [m]).
  { intros m. unfold A. cbn [app]. f_equal. rewrite <- !app_assoc. reflexivity. }
  assert (HA : A <> []) by discriminate.
  set (e := ascii_of_N 69).
  assert (He : plainByte e) by (split; vm_compute; reflexivity).
  assert (Erm : replaceMarker = str ">>>>>>> REPLAC" ++ [e]) by reflexivity.
  destruct (trimRightSpace_stops e (Join A lf ++ lf ++ str ">>>>>>> REPLAC") t3 He)
    as (t3a & t3b & Et3 & Etrim).
  assert (Etext : TrimSpace (Join (A ++ [replaceMarker ++ t3]) lf)
                  = Join (A ++ [replaceMarker ++ t3a]) lf).
  { unfold TrimSpace. rewrite !Join_snoc by exact HA.
    assert (Eleft : forall z, trimLeftSpace (Join A lf ++ z) = Join A lf ++ z).
    { intros z. unfold A, searchMarker.
      destruct (Join_head (ascii_of_N 60) (str "<<<<<< SEARCH" ++ t1)
                          (S ++ [separatorMarker ++ t2] ++ R)) as [r Er].
      change (str "<<<<<<< SEARCH" ++ t1)
        with (ascii_of_N 60 :: (str "<<<<<< SEARCH" ++ t1)).
      rewrite Er. cbn [app]. apply trimLeftSpace_plain.
      split; vm_compute; reflexivity. }
    rewrite Eleft, Erm. rewrite <- !app_assoc in Etrim. cbn [app] in Etrim.
    rewrite <- !app_assoc. cbn [app]. exact Etrim. }
  unfold diffLines. rewrite EA. unfold gostring in *. rewrite Etext, Split_Join.
  - exists [], (searchMarker ++ t1), (separatorMarker ++ t2), (replaceMarker ++ t3a), [].
    split; [cbn [app]; symmetry; apply EA|].
    repeat split; try assumption; try constructor; apply HasPrefix_app.
  - destruct A; [contradiction|discriminate].
  - apply Forall_app. split.
    + unfold A. constructor; [now apply noLF_app|].
      apply Forall_app. split; [exact HS|].
      constructor; [now apply noLF_app|exact HR].
    + constructor; [|constructor]. apply noLF_app; [exact Hm3|].
      rewrite Et3 in Ht3. now apply noLF_app_l in Ht3.
Qed.

(** X1: a diff text made of a line that starts with the search marker, at
    least one search line, a line that starts with the separator, the
    replace lines and a line that starts with the replace marker, with
    one-byte white space before and after it, is parsed into the search
    lines and the replace lines, each joined by a line feed. *)
Theorem parseDiff_block_text (ws1 ws2 t1 t2 t3 : gostring) (S R : list gostring) :
  blank ws1 -> blank ws2 ->
  noLF t1 -> noLF t2 -> noLF t3 -> Forall noLF S -> Forall noLF R ->
  S <> [] -> plainLines S -> plainLines R ->
  parseDiff (ws1 ++ Join ((searchMarker ++ t1) :: S
                            ++ (separatorMarker ++ t2) :: R
                            ++ [replaceMarker ++ t3]) lf ++ ws2)
  = (Join S lf, Join R lf, None).
Proof.
  intros Hw1 Hw2 Ht1 Ht2 Ht3 HS HR Hne HpS HpR.
  rewrite (parseDiff_same_lines _ _ (diffLines_blank_around _ _ _ Hw1 Hw2)).
  apply parseDiff_triple_lines. now apply wellFormedTriple_block.
Qed.

Lemma parseDiff_block_text_witness :
  parseDiff ([LF; TAB]
               ++ Join ((searchMarker ++ []) :: [str "old code"; str "more"]
                          ++ (separatorMarker ++ str "====") :: [str "new code"]
                          ++ [replaceMarker ++ [SP; SP]]) lf
               ++ [SP; CR; LF])
  = (Join [str "old code"; str "more"] lf, Join [str "new code"] lf, None).
Proof.
  apply parseDiff_block_text;
    try (repeat constructor; fail);
    try discriminate;
    try (repeat constructor; intros H; vm_compute in H;
         repeat (destruct H as [H|H]; [discriminate|]); exact H).
Defined.

(** X2: a diff without the closing replace marker is still parsed: the
    replace lines are collected up to the end of the input. *)
Theorem parseDiff_missing_replace_marker
        (diff : gostring) (pre : list gostring) (m1 : gostring) (S : list gostring)
        (m2 : gostring) (R : list gostring) :
  diffLines diff = pre ++ m1 :: S ++ m2 :: R ->
  plainLines pre -> plainLines S -> plainLines R -> S <> [] ->
  HasPrefix m1 searchMarker = true ->
  HasPrefix m2 separatorMarker = true ->
  parseDiff diff = (Join S lf, Join R lf, None).
Proof.
  intros E Hpre HS HR Hne H1 H2.
  rewrite (parseDiff_of_scan _ S R false true).
  - destruct S; [contradiction|reflexivity].
  - rewrite E, scan_app. unfold scanInit. rewrite (scan_plain_idle pre [] [] Hpre).
    rewrite scan_cons, (scanLine_search _ m1 H1). cbn [searchLines replaceLines].
    rewrite scan_app, (scan_plain_search S [] [] false HS). cbn [app].
    rewrite scan_cons, (scanLine_separator _ m2 H2). cbn [searchLines replaceLines].
    now rewrite (scan_plain_replace R S [] HR).
Qed.

Lemma parseDiff_missing_replace_marker_witness :
  parseDiff (nl ["<<<<<<< SEARCH"; "search text"; "======="; "replacement"]%string)
  = (Join [str "search text"] lf, Join [str "replacement"] lf, None).
Proof.
  apply (parseDiff_missing_replace_marker _ [] (str "<<<<<<< SEARCH") [str "search text"]
           (str "=======") [str "replacement"]);
    try (vm_compute; reflexivity); try discriminate; repeat constructor.
Defined.

(** The white space of [TrimSpace] that is not one byte long is trimmed too,
    and a byte that only looks like the start of an encoding is kept. *)
Example TrimSpace_unicode :
  TrimSpace ([ascii_of_N 194; ascii_of_N 160; SP] ++ str "a b"
               ++ [ascii_of_N 226; ascii_of_N 128; ascii_of_N 168; LF])
  = str "a b"
  /\ TrimSpace ([ascii_of_N 194; SP] ++ str "a" ++ [ascii_of_N 128; TAB])
     = [ascii_of_N 194; SP] ++ str "a" ++ [ascii_of_N 128].
Proof. split; vm_compute; reflexivity. Qed.

(** ** The claims at concrete inputs *)

Lemma performEdit_ambiguous_iff_witness :
  snd (performEdit (nl ["duplicate"; "some text"; "duplicate"; "more text"]%string)
                   (str "duplicate") (str "unique"))
    = Some (Errorf ambiguousMessage)
  /\ fst (performEdit (nl ["duplicate"; "some text"; "duplicate"; "more text"]%string)
                      (str "duplicate") (str "unique")) = [].
Proof.
  split; [vm_compute; reflexivity|].
  apply (proj2 (performEdit_ambiguous_iff
                  (nl ["duplicate"; "some text"; "duplicate"; "more text"]%string)
                  (str "duplicate") (str "unique"))).
  vm_compute. reflexivity.
Defined.

Lemma performEdit_line_endings_witness :
  performEdit (str "unix" ++ [LF] ++ str "windows" ++ [CR; LF] ++ str "mac" ++ [CR] ++ str "end")
              (str "windows" ++ [CR; LF]) (str "normalized" ++ [CR; LF])
    = (str "unix" ++ [LF] ++ str "normalized" ++ [CR; LF] ++ str "mac" ++ [CR] ++ str "end",
       None)
  /\ exists i,
       firstMatch
         (crlfToLf (str "unix" ++ [LF] ++ str "windows" ++ [CR; LF] ++ str "mac" ++ [CR] ++ str "end"))
         (crlfToLf (str "windows" ++ [CR; LF])) i
       /\ str "unix" ++ [LF] ++ str "normalized" ++ [CR; LF] ++ str "mac" ++ [CR] ++ str "end"
          = firstn i (crlfToLf (str "unix" ++ [LF] ++ str "windows" ++ [CR; LF]
                                  ++ str "mac" ++ [CR] ++ str "end"))
              ++ (str "normalized" ++ [CR; LF])
              ++ skipn (i + length (crlfToLf (str "windows" ++ [CR; LF])))
                   (crlfToLf (str "unix" ++ [LF] ++ str "windows" ++ [CR; LF]
                                ++ str "mac" ++ [CR] ++ str "end")).
Proof.
  split; [vm_compute; reflexivity|].
  destruct (performEdit_line_endings
              (str "unix" ++ [LF] ++ str "windows" ++ [CR; LF] ++ str "mac" ++ [CR] ++ str "end")
              (str "windows" ++ [CR; LF]) (str "normalized" ++ [CR; LF]))
    as (_ & _ & _ & _ & _ & H & _).
  apply H. vm_compute. reflexivity.
Defined.

Lemma parseDiff_marker_triple_witness :
  blank [LF; SP] /\ blank [CR; LF; LF]
  /\ wellFormedTriple
       (diffLines (nl ["Edit:"; ""; "<<<<<<< SEARCH"; "test line"; "  second"; "======= x";
                       "replacement line"; ">>>>>>> REPLACE"; "done"]%string))
       [str "test line"; str "  second"] [str "replacement line"]
  /\ parseDiff ([LF; SP]
                  ++ nl ["Edit:"; ""; "<<<<<<< SEARCH"; "test line"; "  second"; "======= x";
                         "replacement line"; ">>>>>>> REPLACE"; "done"]%string
                  ++ [CR; LF; LF])
     = (nl ["test line"; "  second"]%string, str "replacement line", None).
Proof.
  assert (Hw1 : blank [LF; SP]) by (repeat constructor).
  assert (Hw2 : blank [CR; LF; LF]) by (repeat constructor).
  assert (Ht : wellFormedTriple
       (diffLines (nl ["Edit:"; ""; "<<<<<<< SEARCH"; "test line"; "  second"; "======= x";
                       "replacement line"; ">>>>>>> REPLACE"; "done"]%string))
       [str "test line"; str "  second"] [str "replacement line"]).
  { exists [str "Edit:"; []], (str "<<<<<<< SEARCH"), (str "======= x"),
      (str ">>>>>>> REPLACE"), [str "done"].
    split; [vm_compute; reflexivity|].
    repeat split; try discriminate; repeat constructor. }
  split; [exact Hw1|]. split; [exact Hw2|]. split; [exact Ht|].
  exact (parseDiff_marker_triple _ _ _ _ _ Hw1 Hw2 Ht).
Defined.

Lemma parseDiff_no_search_block_witness :
  parseDiff (nl ["<<<<<<< SEARCH"; "======="; "replacement"; ">>>>>>> REPLACE"]%string)
  = ([], [], Some (Errorf noSearchBlockMessage)).
Proof.
  destruct (parseDiff_no_search_block
              (nl ["<<<<<<< SEARCH"; "======="; "replacement"; ">>>>>>> REPLACE"]%string))
    as (_ & _ & _ & _ & _ & H).
  apply (H [] (str "<<<<<<< SEARCH") (str "=======")
           [str "replacement"; str ">>>>>>> REPLACE"]);
    try (vm_compute; reflexivity); repeat constructor.
Defined.

Lemma parseDiff_two_search_markers_witness :
  parseDiff (nl ["<<<<<<< SEARCH"; "old"; "<<<<<<< SEARCH"; "new"; "=======";
                 "x"; ">>>>>>> REPLACE"]%string)
  = (Join ([str "old"] ++ [str "new"]) lf, Join [str "x"] lf, None).
Proof.
  apply (parseDiff_two_search_markers
           (nl ["<<<<<<< SEARCH"; "old"; "<<<<<<< SEARCH"; "new"; "=======";
                "x"; ">>>>>>> REPLACE"]%string)
           [] (str "<<<<<<< SEARCH") [str "old"] (str "<<<<<<< SEARCH") [str "new"]
           (str "=======") [str "x"] (str ">>>>>>> REPLACE") []);
    try (vm_compute; reflexivity); try discriminate; repeat constructor.
Defined.

Lemma parseDiff_fragments_plain_witness :
  parseDiff (nl ["<<<<<<< SEARCH"; "def old_function():"; "    return 1"; "=======";
                 ">>>>>>> REPLACE"]%string)
    = (nl ["def old_function():"; "    return 1"]%string, [], None)
  /\ plainLines (Split (nl ["def old_function():"; "    return 1"]%string) lf)
  /\ plainLines (Split [] lf).
Proof.
  split; [vm_compute; reflexivity|].
  apply (parseDiff_fragments_plain
           (nl ["<<<<<<< SEARCH"; "def old_function():"; "    return 1"; "=======";
                ">>>>>>> REPLACE"]%string)).
  vm_compute. reflexivity.
Defined.

Lemma cut_app (delim : ascii) (s line rest : gostring) :
  cut delim s = Some (line, rest) -> s = line ++ rest.
Proof.
  revert line rest. induction s as [|c t IH]; intros line rest; [discriminate|].
  cbn [cut]. destruct (Ascii.eqb c delim).
  - intros H. now injection H as <- <-.
  - destruct (cut delim t) as [[l r]|] eqn:E; [|discriminate].
    intros H. injection H as <- <-. cbn [app]. f_equal. now apply IH.
Qed.

Lemma ReadString_cases (r : Reader) (delim : ascii) (line : gostring)
      (err : option ending) (r' : Reader) :
  ReadString r delim = (line, err, r') ->
  atEnd r' = atEnd r
  /\ match err with
     | None => pending r = line ++ pending r'
     | Some e => e = atEnd r /\ line = pending r
     end.
Proof.
  unfold ReadString. destruct (cut delim (pending r)) as [[l rest]|] eqn:E.
  - intros H. injection H as <- <- <-. cbn. split; [reflexivity|].
    exact (cut_app delim _ _ _ E).
  - intros H. injection H as <- <- <-. cbn. auto.
Qed.

Lemma readLoop_all (builder : gostring) (r : Reader) :
  readLoop builder r =
  match atEnd r with
  | EOF => (builder ++ pending r, None)
  | Broken e => ([], Some e)
  end.
Proof.
  funelim (readLoop builder r);
    match goal with
    | H : ReadString _ _ = _ |- _ =>
        destruct (ReadString_cases _ _ _ _ _ H) as [E1 E2]
    end.
  - destruct E2 as [<- ->].
    destruct (pending r); cbn; [now rewrite app_nil_r|reflexivity].
  - destruct E2 as [<- _]. reflexivity.
  - match goal with IH : readLoop _ _ = match _ with EOF => _ | Broken _ => _ end |- _ =>
      rewrite IH
    end.
    rewrite E1, E2, app_assoc. reflexivity.
Qed.

Example readDiff_ex :
  readDiffFromStdin (mkReader (str "ab" ++ [LF] ++ str "cd") EOF)
  = (str "ab" ++ [LF] ++ str "cd", None).
Proof. reflexivity. Qed.

(** ** [main] *)

Ltac applyEdit_step :=
  cbn [bind fst snd app];
  match goal with
  | |- context [readDiffFromStdin ?x] =>
      destruct (readDiffFromStdin x) as [?diff [?e|]] eqn:?Hread
  | |- context [parseDiff ?x] =>
      destruct (parseDiff x) as [[?searchBlock ?replaceBlock] [?e|]] eqn:?Hparse
  | |- context [readFileResult ?v ?x] =>
      destruct (readFileResult v x) as [?content [?e|]] eqn:?Hfile
  | |- context [performEdit ?x ?y ?z] =>
      destruct (performEdit x y z) as [?newContent [?e|]] eqn:?Hedit
  | |- context [writeFileResult ?v ?x ?y ?z] =>
      destruct (writeFileResult v x y z) as [?e|] eqn:?Hwrite
  end.

Ltac applyEdit_cases :=
  unfold applyEdit, readDiff, osReadFile, osWriteFile, exitOnError, Printf, Fprintf,
    osExit, ret;
  repeat applyEdit_step;
  cbn [bind fst snd app].

Lemma applyEdit_success (filename : gostring) (env : Env) (newContent : gostring) :
  editSucceeds filename env newContent ->
  writeFileResult env filename newContent 420 = None ->
  applyEdit filename env =
    ([ReadStdin; ReadFile filename; WriteFile filename newContent 420;
      Output Stdout (str "Successfully applied edit to " ++ filename ++ [LF])],
     Done tt).
Proof.
  intros (diff & s & r & c & Hd & Hp & Hf & He) Hw.
  unfold applyEdit, readDiff, osReadFile, osWriteFile, exitOnError, Printf, Fprintf,
    osExit, ret.
  rewrite Hd. cbn [bind fst snd app]. rewrite Hp. cbn [bind fst snd app].
  rewrite Hf. cbn [bind fst snd app]. rewrite He. cbn [bind fst snd app].
  rewrite Hw. reflexivity.
Qed.



Lemma applyEdit_write (filename : gostring) (env : Env) (name data : gostring) (perm : N) :
  In (WriteFile name data perm) (fst (applyEdit filename env)) ->
  name = filename /\ perm = 420%N /\ editSucceeds filename env data.
Proof.
  applyEdit_cases; cbn [In]; intros H;
    repeat (destruct H as [H|H]; try discriminate H); try contradiction;
    injection H as <- <- <-; (split; [reflexivity|split; [reflexivity|]]);
    exists diff, searchBlock, replaceBlock, content; auto.
Qed.

Lemma applyEdit_one_write (filename : gostring) (env : Env) :
  length (filter isWrite (fst (applyEdit filename env))) <= 1.
Proof. applyEdit_cases; cbn; lia. Qed.

Lemma applyEdit_file_access (filename : gostring) (env : Env) :
  existsb isFileAccess (fst (applyEdit filename env)) = true -> diffParsed env.
Proof.
  applyEdit_cases; cbn; try discriminate; intros _;
    exists diff, searchBlock, replaceBlock; auto.
Qed.


Lemma showExample_prints (prog : gostring) :
  snd (showExample prog) = Done tt
  /\ Forall (fun e => isStdout e = true) (fst (showExample prog)).
Proof.
  unfold showExample, Println, Printf, Fprintf. cbn [bind fst snd app].
  split; [reflexivity|]. repeat constructor.
Qed.

Lemma stdout_only (t : list event) :
  Forall (fun e => isStdout e = true) t ->
  filter isWrite t = []
  /\ existsb isFileAccess t = false
  /\ ~ In ReadStdin t.
Proof.
  induction 1 as [|e t He _ (IH1 & IH2 & IH3)]; [repeat split; intros []|].
  destruct e as [[|] text| | |]; try discriminate He.
  cbn [filter isWrite existsb isFileAccess orb In]. repeat split; try assumption.
  intros [H|H]; [discriminate|contradiction].
Qed.

Lemma main_one_argument (prog filename : gostring) (env : Env) :
  main prog false [filename] env = applyEdit filename env.
Proof.
  unfold main. cbn [length Nat.eqb negb nth]. unfold ret. cbn [bind].
  destruct (applyEdit filename env) as [t r]. reflexivity.
Qed.

Lemma main_usage_trace (prog : gostring) (args : list gostring) (env : Env) :
  length args <> 1 ->
  main prog false args env =
    ([Output Stderr (str "Usage: " ++ prog ++ str " [--explain] <filename>" ++ [LF]);
      Output Stderr (str "Use --explain to see example usage" ++ [LF])],
     Exit 1%Z).
Proof.
  intros H. unfold main.
  destruct (Nat.eqb_spec (length args) 1) as [E|_]; [contradiction|].
  reflexivity.
Qed.

Lemma main_cases (prog : gostring) (explain : bool) (args : list gostring) (env : Env) :
  (explain = true /\ main prog explain args env = showExample prog)
  \/ (explain = false /\ length args <> 1
      /\ main prog explain args env =
         ([Output Stderr (str "Usage: " ++ prog ++ str " [--explain] <filename>" ++ [LF]);
           Output Stderr (str "Use --explain to see example usage" ++ [LF])],
          Exit 1%Z))
  \/ (explain = false /\ exists filename,
        args = [filename] /\ main prog explain args env = applyEdit filename env).
Proof.
  destruct explain; [left; now split|right].
  destruct args as [|f [|g rest]].
  - left. split; [reflexivity|]. split; [discriminate|]. now apply main_usage_trace.
  - right. split; [reflexivity|]. exists f. split; [reflexivity|].
    apply main_one_argument.
  - left. split; [reflexivity|]. split; [discriminate|]. now apply main_usage_trace.
Qed.

(** X3: whatever the arguments and the environment, [main] calls
    [os.WriteFile] at most once, and only for the file named by its single
    argument, with mode 0644 and with the content that [performEdit] returned
    without error for that file's content and the parsed diff. *)
Theorem main_writes_only_the_edit
        (prog : gostring) (explain : bool) (args : list gostring) (env : Env) :
  (forall name data perm,
     In (WriteFile name data perm) (fst (main prog explain args env)) ->
     explain = false /\ args = [name] /\ perm = 420%N /\ editSucceeds name env data)
  /\ length (filter isWrite (fst (main prog explain args env))) <= 1.
Proof.
  destruct (main_cases prog explain args env)
    as [[He ->]|[(He & Hn & ->)|(He & f & -> & ->)]].
  - destruct (showExample_prints prog) as [_ Hall]. split.
    + intros name data perm Hin. rewrite Forall_forall in Hall.
      apply Hall in Hin. discriminate.
    + rewrite (proj1 (stdout_only _ Hall)). simpl. lia.
  - split; [|cbn; lia]. intros name data perm [H|[H|[]]]; discriminate.
  - split; [|apply applyEdit_one_write].
    intros name data perm Hin. destruct (applyEdit_write _ _ _ _ _ Hin) as (-> & -> & H).
    auto.
Qed.

Lemma applyEdit_read (filename : gostring) (env : Env) (name : gostring) :
  In (ReadFile name) (fst (applyEdit filename env)) -> name = filename.
Proof.
  applyEdit_cases; cbn [In]; intros H;
    repeat (destruct H as [H|H]; try discriminate H); try contradiction;
    now injection H as <-.
Qed.



(** X6: [main] reads the standard input only when it was not asked for the
    example and has exactly one argument; it accesses a file only after the
    diff has been read and parsed without error, and the only file it reads
    is the one its argument names. *)
Theorem main_input_access
        (prog : gostring) (explain : bool) (args : list gostring) (env : Env) :
  (In ReadStdin (fst (main prog explain args env)) ->
   explain = false /\ length args = 1)
  /\ (existsb isFileAccess (fst (main prog explain args env)) = true ->
      explain = false /\ length args = 1 /\ diffParsed env)
  /\ (forall name, In (ReadFile name) (fst (main prog explain args env)) ->
                   args = [name]).
Proof.
  destruct (main_cases prog explain args env)
    as [[He ->]|[(He & Hn & ->)|(He & f & -> & ->)]].
  - destruct (showExample_prints prog) as [_ Hall].
    destruct (stdout_only _ Hall) as (_ & H2 & H3).
    split; [intros H; contradiction|]. split; [rewrite H2; discriminate|].
    intros name Hin. rewrite Forall_forall in Hall. apply Hall in Hin. discriminate.
  - split; [intros [H|[H|[]]]; discriminate|]. split; [discriminate|].
    intros name [H|[H|[]]]; discriminate.
  - split; [auto|]. split.
    + intros H. split; [assumption|]. split; [reflexivity|].
      now apply (applyEdit_file_access f).
    + intros name Hin. now rewrite (applyEdit_read _ _ _ Hin).
Qed.


(** ** More about [performEdit] *)

Lemma performEdit_sole_match (c s r : gostring) (i : nat) :
  normalize s <> [] ->
  matchesAt (normalize c) (normalize s) i ->
  (forall k, matchesAt (normalize c) (normalize s) k -> k = i) ->
  performEdit c s r =
    (firstn i (normalize c) ++ r ++ skipn (i + length (normalize s)) (normalize c), None).
Proof.
  intros Hne Hi Hin.
  destruct (Index_cases (normalize c) (normalize s)) as [E|(k & E & _)].
  - exfalso. now apply (Index_absent _ _ E i).
  - destruct (Index_first _ _ _ E) as [Hk _]. apply Hin in Hk. subst k.
    rewrite (performEdit_found _ _ _ i E).
    destruct (Index_cases (skipn (i + length (normalize s)) (normalize c)) (normalize s))
      as [E2|(m & E2 & _)]; [now rewrite E2|].
    exfalso. destruct (Index_first _ _ _ E2) as [Hm _].
    apply matchesAt_in_suffix in Hm; [|apply matchesAt_bound in Hi; lia].
    apply Hin in Hm. apply Hne, length_zero_iff_nil. lia.
Qed.

Lemma performEdit_success_inv (c s r out : gostring) :
  performEdit c s r = (out, None) ->
  exists i,
    Index (normalize c) (normalize s) = Z.of_nat i
    /\ Index (skipn (i + length (normalize s)) (normalize c)) (normalize s) = (-1)%Z
    /\ out = firstn i (normalize c) ++ r ++ skipn (i + length (normalize s)) (normalize c).
Proof.
  intros H.
  destruct (Index_cases (normalize c) (normalize s)) as [E|(k & E & _)].
  - rewrite (performEdit_not_found _ _ _ E) in H. discriminate.
  - rewrite (performEdit_found _ _ _ k E) in H.
    destruct (Z.eqb_spec (Index (skipn (k + length (normalize s)) (normalize c))
                                (normalize s)) (-1)) as [E2|E2]; [|discriminate].
    injection H as <-. now exists k.
Qed.

Lemma firstn_exact (p x : gostring) (i : nat) :
  length p = i -> firstn i (p ++ x) = p.
Proof.
  intros <-. rewrite firstn_app, Nat.sub_diag, firstn_all. cbn [firstn].
  apply app_nil_r.
Qed.

Lemma skipn_exact (p r q : gostring) (i : nat) :
  length p = i -> skipn (i + length r) (p ++ r ++ q) = q.
Proof.
  intros <-. rewrite app_assoc, skipn_app, <- length_app, Nat.sub_diag.
  rewrite skipn_all. reflexivity.
Qed.

Lemma noCRLF_middle (a b c : gostring) : noCRLF (a ++ b ++ c) -> noCRLF b.
Proof.
  unfold noCRLF. intros H [j (pre & post & -> & _)]. apply H.
  exists (length (a ++ pre)), (a ++ pre), (post ++ c).
  split; [|reflexivity]. now rewrite <- !app_assoc.
Qed.

Lemma normalize_noCRLF (s : gostring) : noCRLF s -> normalize s = s.
Proof. intros H. rewrite normalize_crlfToLf. now apply crlfToLf_noCRLF. Qed.

(** X12: a successful edit can be undone.  When [performEdit] has replaced
    the search by a non-empty [replace], the result contains no CR LF pair
    and [replace] occurs at one position only in it, editing the result with
    [replace] as the search and the normalized search as the replacement
    gives back the normalized content. *)
Theorem performEdit_undo (content search replace out : gostring) (k : nat) :
  performEdit content search replace = (out, None) ->
  replace <> [] ->
  noCRLF out ->
  occurrences out replace = [k] ->
  performEdit out replace (normalize search) = (normalize content, None).
Proof.
  intros H Hne Hout Hocc.
  destruct (performEdit_success_inv _ _ _ _ H) as (i & Ei & _ & ->).
  destruct (Index_first _ _ _ Ei) as [Hi _].
  pose proof (matchesAt_bound _ _ _ Hi) as Hb.
  set (nc := normalize content) in *. set (ns := normalize search) in *.
  assert (Hr : normalize replace = replace).
  { apply normalize_noCRLF.
    exact (noCRLF_middle (firstn i nc) replace (skipn (i + length ns) nc) Hout). }
  assert (Hm : matchesAt (firstn i nc ++ replace ++ skipn (i + length ns) nc) replace i).
  { exists (firstn i nc), (skipn (i + length ns) nc). split; [reflexivity|].
    rewrite length_firstn. lia. }
  assert (Hp : length (firstn i nc) = i) by (rewrite length_firstn; lia).
  rewrite (performEdit_sole_match _ _ _ i).
  - rewrite (normalize_noCRLF _ Hout), Hr.
    rewrite (firstn_exact _ _ _ Hp), (skipn_exact _ _ _ _ Hp).
    now rewrite <- (matchesAt_split _ _ _ Hi).
  - now rewrite Hr.
  - now rewrite (normalize_noCRLF _ Hout), Hr.
  - rewrite (normalize_noCRLF _ Hout), Hr. intros j Hj.
    apply occurrences_spec in Hj, Hm. rewrite Hocc in Hj, Hm.
    destruct Hj as [<-|[]], Hm as [<-|[]]. reflexivity.
Qed.

(** X13: replacing a block by its own normalized text changes nothing but the
    line endings: the result is the normalized content. *)
Theorem performEdit_same_text (content search out : gostring) :
  performEdit content search (normalize search) = (out, None) ->
  out = normalize content.
Proof.
  intros H. destruct (performEdit_success_inv _ _ _ _ H) as (i & Ei & _ & ->).
  destruct (Index_first _ _ _ Ei) as [Hi _]. symmetry. now apply matchesAt_split.
Qed.

(** X14: [performEdit] succeeds exactly when the normalized search occurs in
    the normalized content and every occurrence of it starts before the end
    of the first one. *)
Theorem performEdit_succeeds_iff (content search replace : gostring) :
  snd (performEdit content search replace) = None
  <-> exists i,
        firstMatch (normalize content) (normalize search) i
        /\ forall j, matchesAt (normalize content) (normalize search) j ->
                     j < i + length (normalize search).
Proof.
  destruct (Index_cases (normalize content) (normalize search)) as [E|(k & E & _)].
  - rewrite (performEdit_not_found _ _ _ E). cbn [snd]. split; [discriminate|].
    intros (i & [Hi _] & _). exfalso. now apply (Index_absent _ _ E i).
  - rewrite (performEdit_found _ _ _ k E).
    destruct (Z.eqb_spec (Index (skipn (k + length (normalize search)) (normalize content))
                                (normalize search)) (-1)) as [E2|E2]; cbn [snd].
    + split; [|reflexivity]. intros _. exists k. split; [now apply firstMatch_Index|].
      intros j Hj. destruct (Nat.lt_ge_cases j (k + length (normalize search))) as [|Hge];
        [assumption|].
      exfalso. apply (Index_absent _ _ E2 (j - (k + length (normalize search)))).
      now apply matchesAt_of_suffix.
    + split; [discriminate|]. intros (i & Hi & Hall). exfalso.
      apply firstMatch_Index in Hi. assert (i = k) by lia. subst i.
      destruct (Index_cases (skipn (k + length (normalize search)) (normalize content))
                            (normalize search)) as [E3|(m & E3 & _)]; [contradiction|].
      destruct (Index_first _ _ _ E3) as [Hm _].
      apply matchesAt_in_suffix in Hm.
      * apply Hall in Hm. lia.
      * destruct (Index_first _ _ _ E) as [Hk _]. apply matchesAt_bound in Hk. lia.
Qed.

Lemma crBeforeLF_tail (c : ascii) (t : gostring) :
  crBeforeLF (c :: t) -> crBeforeLF t.
Proof. intros H a b E. apply (H (c :: a) b). now rewrite E. Qed.

Lemma crlfToLf_no_cr (s : gostring) : crBeforeLF s -> ~ In CR (crlfToLf s).
Proof.
  remember (length s) as n eqn:Hn. revert s Hn.
  induction n as [n IH] using lt_wf_ind. intros s Hn Hs.
  destruct s as [|c t]; [intros []|].
  rewrite crlfToLf_cons. destruct (HasPrefix (c :: t) crlf) eqn:E.
  - apply HasPrefix_inv in E. cbn in E. injection E as -> E.
    rewrite E in Hs |- *. cbn [skipn].
    intros [H|H]; [discriminate|]. revert H.
    apply (IH (length (skipn 1 t))).
    + subst n. rewrite E. simpl. lia.
    + reflexivity.
    + now apply crBeforeLF_tail, crBeforeLF_tail in Hs.
  - intros [H|H].
    + subst c. pose proof (Hs [] t eq_refl) as Ht.
      rewrite HasPrefix_crlf in E. destruct t as [|d t']; [discriminate Ht|].
      unfold lf in Ht. cbn [HasPrefix] in Ht.
      rewrite HasPrefix_nil, andb_true_r in Ht.
      rewrite Ht, Ascii.eqb_refl in E. discriminate.
    + revert H. apply (IH (length t)); [subst n; simpl; lia|reflexivity|].
      now apply crBeforeLF_tail in Hs.
Qed.

Lemma not_In_firstn (x : ascii) (s : gostring) (i : nat) :
  ~ In x s -> ~ In x (firstn i s).
Proof.
  intros H Hin. apply H. rewrite <- (firstn_skipn i s). apply in_app_iff. now left.
Qed.

Lemma not_In_skipn (x : ascii) (s : gostring) (i : nat) :
  ~ In x s -> ~ In x (skipn i s).
Proof.
  intros H Hin. apply H. rewrite <- (firstn_skipn i s). apply in_app_iff. now right.
Qed.

(** X15: a file whose carriage returns are all followed by a line feed is
    converted to line feeds only: after a successful edit no carriage return
    is left before or after the inserted [replace]. *)
Theorem performEdit_drops_carriage_returns (content search replace out : gostring) :
  crBeforeLF content ->
  performEdit content search replace = (out, None) ->
  exists pre post,
    out = pre ++ replace ++ post /\ ~ In CR pre /\ ~ In CR post.
Proof.
  intros Hc H. destruct (performEdit_success_inv _ _ _ _ H) as (i & _ & _ & ->).
  apply crlfToLf_no_cr in Hc. rewrite <- normalize_crlfToLf in Hc.
  eexists _, _. split; [reflexivity|].
  split; [now apply not_In_firstn|now apply not_In_skipn].
Qed.

Lemma Join_last (S0 : list gostring) (l : gostring) :
  exists a, Join (S0 ++ [l]) lf = a ++ l.
Proof.
  destruct S0 as [|x S0']; [now exists []|].
  exists (Join (x :: S0') lf ++ lf). rewrite Join_snoc by discriminate.
  now rewrite <- app_assoc.
Qed.

(** X16: a diff whose last search line ends with a carriage return, as every
    line of a diff with CR LF line endings does, cannot be applied to a file
    whose carriage returns are all followed by a line feed: the diff is
    parsed, and [performEdit] fails with the "search block not found"
    error. *)
Theorem crlf_diff_not_found
        (diff content : gostring) (S0 : list gostring) (l : gostring)
        (R : list gostring) :
  wellFormedTriple (diffLines diff) (S0 ++ [l ++ [CR]]) R ->
  crBeforeLF content ->
  exists search replace,
    parseDiff diff = (search, replace, None)
    /\ performEdit content search replace
       = ([], Some (Errorf (notFoundPrefix ++ search))).
Proof.
  intros Ht Hc. exists (Join (S0 ++ [l ++ [CR]]) lf), (Join R lf).
  split; [now apply parseDiff_triple_lines|].
  apply performEdit_not_found, Index_none. intros [j Hj].
  destruct (Join_last S0 (l ++ [CR])) as [a Ea]. unfold gostring in *. rewrite Ea in Hj.
  apply (crlfToLf_no_cr content Hc). rewrite <- normalize_crlfToLf.
  destruct Hj as (pre & post & -> & _).
  replace (a ++ l ++ [CR]) with ((a ++ l) ++ CR :: []) by now rewrite <- app_assoc.
  rewrite normalize_crlfToLf, (crlfToLf_app_lone_cr _ [] eq_refl).
  rewrite !in_app_iff. right. left. right. now left.
Qed.

(** ** More about [parseDiff] *)

(** X17: two marker blocks in one diff are not two edits: their search lines
    are collected into one search fragment and their replace lines into one
    replace fragment. *)
Theorem parseDiff_two_blocks
        (diff : gostring) (pre mid post : list gostring)
        (m1 m2 m3 n1 n2 n3 : gostring) (S1 R1 S2 R2 : list gostring) :
  diffLines diff
    = pre ++ (m1 :: S1 ++ m2 :: R1 ++ m3 :: mid)
          ++ (n1 :: S2 ++ n2 :: R2 ++ n3 :: post) ->
  plainLines pre -> plainLines mid -> plainLines post ->
  plainLines S1 -> plainLines R1 -> plainLines S2 -> plainLines R2 ->
  HasPrefix m1 searchMarker = true -> HasPrefix n1 searchMarker = true ->
  HasPrefix m2 separatorMarker = true -> HasPrefix n2 separatorMarker = true ->
  HasPrefix m3 replaceMarker = true -> HasPrefix n3 replaceMarker = true ->
  S1 ++ S2 <> [] ->
  parseDiff diff = (Join (S1 ++ S2) lf, Join (R1 ++ R2) lf, None).
Proof.
  intros E Hpre Hmid Hpost HS1 HR1 HS2 HR2 Hm1 Hn1 Hm2 Hn2 Hm3 Hn3 Hne.
  rewrite (parseDiff_of_scan _ (S1 ++ S2) (R1 ++ R2) false false).
  - destruct (S1 ++ S2); [contradiction|reflexivity].
  - rewrite E, scan_app. unfold scanInit. rewrite (scan_plain_idle pre [] [] Hpre).
    rewrite scan_app.
    rewrite (scan_block [] [] false false m1 m2 m3 S1 R1 mid) by assumption.
    cbn [app].
    now rewrite (scan_block S1 R1 false false n1 n2 n3 S2 R2 post).
Qed.

(** X18: one-byte white space before and after the diff text is ignored:
    [parseDiff] returns the same fragments, or the same error, with and
    without it. *)
Theorem parseDiff_blank_around (ws1 diff ws2 : gostring) :
  blank ws1 -> blank ws2 -> parseDiff (ws1 ++ diff ++ ws2) = parseDiff diff.
Proof.
  intros H1 H2. apply parseDiff_same_lines. now apply diffLines_blank_around.
Qed.

(** ** [readDiffFromStdin] *)

(** X11: [readDiffFromStdin] returns the whole standard input, a last line
    without line feed included, when the input ends with [io.EOF]; when
    reading fails with another error it returns that error and the empty
    string, whatever was read before. *)
Theorem readDiffFromStdin_all (stdin : Reader) :
  readDiffFromStdin stdin =
  match atEnd stdin with
  | EOF => (pending stdin, None)
  | Broken e => ([], Some e)
  end.
Proof. unfold readDiffFromStdin. now rewrite readLoop_all. Qed.

(** ** [main] from end to end *)


Lemma stdin_eof (env : Env) (data : gostring) :
  stdin env = mkReader data EOF -> readDiffFromStdin (stdin env) = (data, None).
Proof. intros ->. unfold readDiffFromStdin. now rewrite readLoop_all. Qed.

(** X9: from end to end.  When the standard input holds a marker block with
    white space around it, and [performEdit] succeeds on the content of the
    file with the search lines and the replace lines of the block, each
    joined by a line feed, [main] writes that result to the file, and to no
    other, prints the confirmation and returns normally. *)
Theorem main_applies_block
        (prog filename : gostring) (env : Env) (ws1 ws2 t1 t2 t3 : gostring)
        (S R : list gostring) (content newContent : gostring) :
  stdin env = mkReader (ws1 ++ Join ((searchMarker ++ t1) :: S
                                       ++ (separatorMarker ++ t2) :: R
                                       ++ [replaceMarker ++ t3]) lf ++ ws2) EOF ->
  blank ws1 -> blank ws2 ->
  noLF t1 -> noLF t2 -> noLF t3 -> Forall noLF S -> Forall noLF R ->
  S <> [] -> plainLines S -> plainLines R ->
  readFileResult env filename = (content, None) ->
  performEdit content (Join S lf) (Join R lf) = (newContent, None) ->
  writeFileResult env filename newContent 420 = None ->
  main prog false [filename] env =
    ([ReadStdin; ReadFile filename; WriteFile filename newContent 420;
      Output Stdout (str "Successfully applied edit to " ++ filename ++ [LF])],
     Done tt).
Proof.
  intros Hin Hw1 Hw2 Ht1 Ht2 Ht3 HS HR Hne HpS HpR Hfile Hedit Hwrite.
  rewrite main_one_argument. apply applyEdit_success; [|exact Hwrite].
  eexists _, (Join S lf), (Join R lf), content.
  split; [exact (stdin_eof _ _ Hin)|]. split; [|now split].
  rewrite (parseDiff_same_lines _ _ (diffLines_blank_around _ _ _ Hw1 Hw2)).
  apply parseDiff_triple_lines. now apply wellFormedTriple_block.
Qed.

(** X10: when the standard input holds no marker line at all, [main] reports
    that no search block was found and exits with status 1 without reading or
    writing any file. *)
Theorem main_rejects_diff_without_markers
        (prog filename : gostring) (env : Env) (data : gostring) :
  stdin env = mkReader data EOF ->
  plainLines (diffLines data) ->
  main prog false [filename] env =
    ([ReadStdin;
      Output Stderr (str "Error parsing diff: no search block found in diff" ++ [LF])],
     Exit 1%Z).
Proof.
  intros Hin Hp. rewrite main_one_argument.
  assert (Hparse : parseDiff data = ([], [], Some (Errorf noSearchBlockMessage))).
  { apply parseDiff_fails_iff. unfold scanInit. now rewrite (scan_plain_idle _ [] [] Hp). }
  unfold applyEdit, readDiff. rewrite (stdin_eof _ _ Hin). cbn [bind fst snd app].
  rewrite Hparse. reflexivity.
Qed.

(** ** The added properties at concrete inputs *)

Example main_example :
  main (str "apply-edit") false [str "app.py"] exampleEnv
  = ([ReadStdin; ReadFile (str "app.py");
      WriteFile (str "app.py")
                (nl ["import math"; "from flask import Flask"; "app = Flask(__name__)"; ""]%string)
                420;
      Output Stdout (str "Successfully applied edit to app.py" ++ [LF])],
     Done tt).
Proof. vm_compute. reflexivity. Qed.


Lemma performEdit_undo_witness :
  performEdit (str "one" ++ [CR; LF] ++ str "two") (str "one") (str "1")
    = (str "1" ++ [LF] ++ str "two", None)
  /\ performEdit (str "1" ++ [LF] ++ str "two") (str "1") (normalize (str "one"))
     = (normalize (str "one" ++ [CR; LF] ++ str "two"), None).
Proof.
  assert (H : performEdit (str "one" ++ [CR; LF] ++ str "two") (str "one") (str "1")
              = (str "1" ++ [LF] ++ str "two", None)) by (vm_compute; reflexivity).
  split; [exact H|].
  apply (performEdit_undo _ _ _ _ 0 H); [discriminate| |vm_compute; reflexivity].
  apply Index_none. vm_compute. reflexivity.
Defined.

Lemma performEdit_same_text_witness :
  str "a" ++ [LF] ++ str "b" ++ [LF]
  = normalize (str "a" ++ [CR; LF] ++ str "b" ++ [CR; LF]).
Proof.
  apply (performEdit_same_text (str "a" ++ [CR; LF] ++ str "b" ++ [CR; LF])
                               (str "b" ++ [CR; LF])).
  vm_compute. reflexivity.
Defined.

Lemma crBeforeLFb_sound (s : gostring) : crBeforeLFb s = true -> crBeforeLF s.
Proof.
  induction s as [|c t IH]; intros H a b E.
  - destruct a; discriminate.
  - cbn [crBeforeLFb] in H. apply andb_true_iff in H as [H1 H2].
    destruct a as [|x a].
    + cbn in E. injection E as -> ->. now rewrite Ascii.eqb_refl in H1.
    + cbn in E. injection E as -> ->. now apply (IH H2 a b).
Qed.

Lemma performEdit_drops_carriage_returns_witness :
  exists pre post,
    str "line 1" ++ [LF] ++ str "new" ++ [CR; LF] ++ str "line 3" ++ [LF]
    = pre ++ (str "new" ++ [CR]) ++ post
    /\ ~ In CR pre /\ ~ In CR post.
Proof.
  apply (performEdit_drops_carriage_returns
           (str "line 1" ++ [CR; LF] ++ str "line 2" ++ [CR; LF] ++ str "line 3" ++ [CR; LF])
           (str "line 2")).
  - apply crBeforeLFb_sound. vm_compute. reflexivity.
  - vm_compute. reflexivity.
Defined.

Lemma crlf_diff_not_found_witness :
  exists search replace,
    parseDiff (str "<<<<<<< SEARCH" ++ [CR; LF] ++ str "foo" ++ [CR; LF]
                 ++ str "=======" ++ [CR; LF] ++ str "bar" ++ [CR; LF]
                 ++ str ">>>>>>> REPLACE" ++ [CR; LF])
      = (search, replace, None)
    /\ performEdit (str "foo" ++ [CR; LF] ++ str "baz" ++ [CR; LF]) search replace
       = ([], Some (Errorf (notFoundPrefix ++ search))).
Proof.
  apply (crlf_diff_not_found _ _ [] (str "foo") [str "bar" ++ [CR]]).
  - exists [], (str "<<<<<<< SEARCH" ++ [CR]), (str "=======" ++ [CR]),
      (str ">>>>>>> REPLACE"), [].
    split; [vm_compute; reflexivity|].
    repeat split; try discriminate; repeat constructor.
  - apply crBeforeLFb_sound. vm_compute. reflexivity.
Defined.

Lemma parseDiff_two_blocks_witness :
  parseDiff (nl ["<<<<<<< SEARCH"; "a"; "======="; "b"; ">>>>>>> REPLACE"; "";
                 "<<<<<<< SEARCH"; "c"; "======="; "d"; ">>>>>>> REPLACE"]%string)
  = (Join ([str "a"] ++ [str "c"]) lf, Join ([str "b"] ++ [str "d"]) lf, None).
Proof.
  apply (parseDiff_two_blocks _ [] [[]] []
           (str "<<<<<<< SEARCH") (str "=======") (str ">>>>>>> REPLACE")
           (str "<<<<<<< SEARCH") (str "=======") (str ">>>>>>> REPLACE")
           [str "a"] [str "b"] [str "c"] [str "d"]);
    try (vm_compute; reflexivity); try discriminate; repeat constructor.
Defined.

Lemma parseDiff_blank_around_witness :
  parseDiff ([LF; SP] ++ nl ["<<<<<<< SEARCH"; "search text"]%string ++ [LF; TAB; LF])
  = parseDiff (nl ["<<<<<<< SEARCH"; "search text"]%string).
Proof. apply parseDiff_blank_around; repeat constructor. Defined.

Lemma main_applies_block_witness :
  main (str "apply-edit") false [str "app.py"] exampleEnv
  = ([ReadStdin; ReadFile (str "app.py");
      WriteFile (str "app.py")
                (nl ["import math"; "from flask import Flask"; "app = Flask(__name__)"; ""]%string)
                420;
      Output Stdout (str "Successfully applied edit to " ++ str "app.py" ++ [LF])],
     Done tt).
Proof.
  apply (main_applies_block _ _ exampleEnv [] [LF] [] [] []
           [str "from flask import Flask"]
           [str "import math"; str "from flask import Flask"]
           (nl ["from flask import Flask"; "app = Flask(__name__)"; ""]%string));
    try (vm_compute; reflexivity);
    try discriminate;
    try (repeat constructor; fail);
    try (repeat constructor; intros H; vm_compute in H;
         repeat (destruct H as [H|H]; [discriminate|]); exact H).
Defined.

Lemma main_rejects_diff_without_markers_witness :
  main (str "apply-edit") false [str "app.py"]
       (mkEnv (mkReader (str "just some text without markers") EOF)
              (readFileResult exampleEnv) (writeFileResult exampleEnv))
  = ([ReadStdin;
      Output Stderr (str "Error parsing diff: no search block found in diff" ++ [LF])],
     Exit 1%Z).
Proof.
  apply (main_rejects_diff_without_markers _ _ _ (str "just some text without markers"));
    [reflexivity|]. vm_compute. repeat constructor.
Defined.
